(** * presto_exporter: the Collect cycle of the Presto cluster exporter

    A shallow embedding of [presto_exporter.go]: the three snapshot
    structures, the eleven metric descriptors, [Describe] and [Collect].
    [Collect] talks to the coordinator over HTTP, logs, and sends samples
    on a channel; these effects are threaded through an explicit state
    with an outcome that records an early return or a panic.  The
    library functions the exporter calls ([strings.TrimSuffix],
    [strconv.ParseFloat], [strconv.Itoa], [strconv.FormatBool],
    [strconv.FormatFloat], [prometheus.BuildFQName],
    [prometheus.NewConstMetric] with its check of the label values by
    [utf8.ValidString]) are modelled from their documented behaviour;
    [http.Get] and [json.Unmarshal] are parameters. *)

From Stdlib Require Import ZArith List String Ascii Bool Lia.
From Stdlib Require Import Floats.SpecFloat.
From Stdlib Require Import Permutation Sorted.
Import ListNotations.

Local Open Scope string_scope.
Local Open Scope Z_scope.

(** ** Go values *)

(** A Go [float64] is an IEEE 754 binary64 value; a [float32] a binary32
    one.  Both are carried by [spec_float], in canonical form for their
    precision. *)
Definition float64 := spec_float.
Definition float32 := spec_float.

(** A non-nil Go [error] is represented by the text of its [Error()]
    method; [option error] is an [error] variable, [None] being [nil]. *)
Definition error := string.

(** A call that returns [(value, err)] with exactly one of them set. *)
Inductive result (A : Type) : Type :=
| Ok (a : A)
| Err (e : error).
Arguments Ok {A} a.
Arguments Err {A} e.

(** The float64 nearest to [m * 2^e]; the float64 [m * 2^e] itself when
    [m] has no more than 53 bits and [e] is in range. *)
Definition dyadic (m e : Z) : float64 := binary_normalize 53 1024 m e false.

(** ** The data model (presto_exporter.go, lines 40-86) *)

Record Exporter := { uri : string }.

Record ClusterExporter := {
  RunningQueries : float64;
  BlockedQueries : float64;
  QueuedQueries : float64;
  ActiveWorkers : float64;
  RunningDrivers : float64;
  ReservedMemory : float64;
  TotalInputRows : float64;
  TotalInputBytes : float64;
  TotalCpuTimeSecs : float64
}.

Record InfoExporter := {
  NodeVersion_Version : string;
  Environment : string;
  Coordinator : bool;
  Starting : bool;
  Uptime : string
}.

(** The anonymous struct of the [QueryStats] field. *)
Record QueryStatsT := {
  QueuedTime : string;
  ElapsedTime : string;
  ExecutionTime : string;
  TotalDrivers : Z;
  RawInputDataSize : string;
  CumulativeUserMemory : float64;
  PeakUserMemoryReservation : string;
  TotalCpuTime : string;
  TotalScheduledTime : string
}.

(** The struct [Query]; its field [Query] is [Query_Query] here. *)
Record Query := {
  QueryId : string;
  State : string;
  Scheduled : bool;
  Query_Query : string;
  QueryStats : QueryStatsT
}.

Record QueryExporter := { Querys : list Query }.

(** ** strings and strconv *)

Module strings.

(** [strings.HasSuffix(s, suffix)]. *)
Definition HasSuffix (s suffix : string) : bool :=
  let n := String.length s in
  let k := String.length suffix in
  (k <=? n)%nat && String.eqb (substring (n - k) k s) suffix.

(** [strings.TrimSuffix(s, suffix)]: [s] without the trailing [suffix];
    [s] unchanged when it does not end with [suffix]. *)
Definition TrimSuffix (s suffix : string) : string :=
  if HasSuffix s suffix
  then substring 0 (String.length s - String.length suffix) s
  else s.

(** [strings.Join(elems, sep)]. *)
Fixpoint Join (elems : list string) (sep : string) : string :=
  match elems with
  | [] => ""
  | [x] => x
  | x :: rest => x ++ sep ++ Join rest sep
  end.

End strings.

(** Bytes and decimal digits. *)
Definition byte_val (c : ascii) : Z := Z.of_N (N_of_ascii c).

Definition is_digit (c : ascii) : bool :=
  (48 <=? byte_val c) && (byte_val c <=? 57).

Definition digit_val (c : ascii) : Z := byte_val c - 48.

(** The byte ['0' + d]. *)
Definition digit_byte (d : Z) : ascii := ascii_of_N (Z.to_N (48 + d)).

Fixpoint string_of_bytes (l : list ascii) : string :=
  match l with
  | [] => EmptyString
  | c :: rest => String c (string_of_bytes rest)
  end.

(** The decimal digits of a natural number, most significant first; no
    digit at all for 0.  [fuel] bounds the number of digits. *)
Fixpoint digits_fuel (fuel : nat) (n : Z) (acc : list Z) : list Z :=
  match fuel with
  | O => acc
  | S fuel' =>
      if n <=? 0 then acc
      else digits_fuel fuel' (n / 10) (n mod 10 :: acc)
  end.

Definition digits_of (n : Z) : list Z :=
  digits_fuel (S (Z.to_nat (Z.log2 n))) n [].

(** The number that a list of digits, most significant first, writes. *)
Definition digits_value (l : list Z) : Z :=
  fold_left (fun a x => a * 10 + x) l 0.

(** ** unicode/utf8 *)

Module utf8.

Definition RuneSelf : Z := 0x80.
Definition locb : Z := 0x80.
Definition hicb : Z := 0xBF.

(** The table [first] together with [acceptRanges], for a byte that is
    not below [RuneSelf]: the length of the sequence that the byte
    starts and the range of the second byte of the sequence; [None] for
    the bytes marked [xx], which start no sequence. *)
Definition first (b : Z) : option (nat * (Z * Z)) :=
  if b <? 0xC2 then None
  else if b <=? 0xDF then Some (2%nat, (locb, hicb))
  else if b =? 0xE0 then Some (3%nat, (0xA0, hicb))
  else if b <=? 0xEC then Some (3%nat, (locb, hicb))
  else if b =? 0xED then Some (3%nat, (locb, 0x9F))
  else if b <=? 0xEF then Some (3%nat, (locb, hicb))
  else if b =? 0xF0 then Some (4%nat, (0x90, hicb))
  else if b <=? 0xF3 then Some (4%nat, (locb, hicb))
  else if b =? 0xF4 then Some (4%nat, (locb, 0x8F))
  else None.

Definition between (lo hi : Z) (c : ascii) : bool :=
  (lo <=? byte_val c) && (byte_val c <=? hi).

(** [utf8.ValidString(s)]: one pass over the bytes; a byte below
    [RuneSelf] stands for itself, any other byte has to start a
    sequence of two, three or four bytes that is all there, with its
    second byte in the range of the table and the bytes after it
    between [locb] and [hicb]. *)
Fixpoint ValidString (s : string) : bool :=
  match s with
  | EmptyString => true
  | String si rest =>
      if byte_val si <? RuneSelf then ValidString rest
      else
        match first (byte_val si) with
        | None => false
        | Some (size, (lo, hi)) =>
            match rest with
            | EmptyString => false
            | String c1 rest1 =>
                if negb (between lo hi c1) then false
                else if (size =? 2)%nat then ValidString rest1
                else
                  match rest1 with
                  | EmptyString => false
                  | String c2 rest2 =>
                      if negb (between locb hicb c2) then false
                      else if (size =? 3)%nat then ValidString rest2
                      else
                        match rest2 with
                        | EmptyString => false
                        | String c3 rest3 =>
                            if negb (between locb hicb c3) then false
                            else ValidString rest3
                        end
                  end
            end
        end
  end.

End utf8.

Module strconv.

(** The [Err] field of a [*strconv.NumError]. *)
Inductive NumError := ErrSyntax | ErrRange.

(** [strconv.FormatBool]. *)
Definition FormatBool (b : bool) : string :=
  if b then "true" else "false".

(** [strconv.Itoa]: the decimal text of an [int], with a leading [-]
    for a negative one. *)
Definition Itoa (i : Z) : string :=
  match i with
  | Z0 => "0"
  | Zpos _ => string_of_bytes (map digit_byte (digits_of i))
  | Zneg _ => String "-" (string_of_bytes (map digit_byte (digits_of (- i))))
  end.

(** *** ParseFloat (atof.go)

    The texts accepted are those of the Go release that go.mod names,
    1.12: decimal numbers with an optional exponent, and the spellings
    of the infinities and of NaN. *)

(** ASCII lower-casing of [equalIgnoreCase]. *)
Definition to_lower (c : ascii) : ascii :=
  if (65 <=? byte_val c) && (byte_val c <=? 90)
  then ascii_of_N (Z.to_N (byte_val c + 32)) else c.

Fixpoint equalIgnoreCase (s1 s2 : string) : bool :=
  match s1, s2 with
  | EmptyString, EmptyString => true
  | String c1 r1, String c2 r2 =>
      Ascii.eqb (to_lower c1) (to_lower c2) && equalIgnoreCase r1 r2
  | _, _ => false
  end.

(** [special]: the spellings of the infinities and of NaN. *)
Definition special (s : string) : option spec_float :=
  match s with
  | EmptyString => None
  | String c _ =>
      if Ascii.eqb c "+" then
        if equalIgnoreCase s "+inf" || equalIgnoreCase s "+infinity"
        then Some (S754_infinity false) else None
      else if Ascii.eqb c "-" then
        if equalIgnoreCase s "-inf" || equalIgnoreCase s "-infinity"
        then Some (S754_infinity true) else None
      else if Ascii.eqb c "n" || Ascii.eqb c "N" then
        if equalIgnoreCase s "nan" then Some S754_nan else None
      else if Ascii.eqb c "i" || Ascii.eqb c "I" then
        if equalIgnoreCase s "inf" || equalIgnoreCase s "infinity"
        then Some (S754_infinity false) else None
      else None
  end.

(** The [decimal] read by [decimal.set]: the value is
    [0.d1d2...dn * 10^dp], where [d1d2...dn] are the digits of
    [mant] and [n = nd].  The source keeps at most 800 digits and a
    [trunc] flag for the rest, which is enough to round exactly; all
    the digits are kept here. *)
Record decimal := {
  neg : bool;
  mant : Z;
  nd : Z;
  dp : Z
}.

(** The digit loop of [set]: digits and at most one point.  Leading
    zeros are not stored and move the point instead.  Returns the rest
    of the input at the first byte that is neither, or [None] on a
    second point. *)
Fixpoint set_digits (s : string) (sawdot sawdigits : bool) (m n p : Z)
  : option (string * bool * bool * Z * Z * Z) :=
  match s with
  | EmptyString => Some (s, sawdot, sawdigits, m, n, p)
  | String c rest =>
      if Ascii.eqb c "." then
        if sawdot then None
        else set_digits rest true sawdigits m n n
      else if is_digit c then
        if Ascii.eqb c "0" && (n =? 0)
        then set_digits rest sawdot true m n (p - 1)
        else set_digits rest sawdot true (m * 10 + digit_val c) (n + 1) p
      else Some (s, sawdot, sawdigits, m, n, p)
  end.

(** The exponent digits: [e] stops growing once it reaches 10000. *)
Fixpoint set_exp_digits (s : string) (e : Z) : string * Z :=
  match s with
  | EmptyString => (s, e)
  | String c rest =>
      if is_digit c
      then set_exp_digits rest (if e <? 10000 then e * 10 + digit_val c else e)
      else (s, e)
  end.

(** The optional exponent part of [set]; [None] when malformed. *)
Definition set_exponent (s : string) : option (string * Z) :=
  match s with
  | String c rest =>
      if Ascii.eqb c "e" || Ascii.eqb c "E" then
        match rest with
        | EmptyString => None
        | String c1 rest1 =>
            let '(esign, digs) :=
              if Ascii.eqb c1 "+" then (1, rest1)
              else if Ascii.eqb c1 "-" then (-1, rest1)
              else (1, rest) in
            match digs with
            | EmptyString => None
            | String c2 _ =>
                if is_digit c2
                then let '(tl, e) := set_exp_digits digs 0 in
                     Some (tl, e * esign)
                else None
            end
        end
      else Some (s, 0)
  | EmptyString => Some (s, 0)
  end.

(** [decimal.set]. *)
Definition decimal_set (s : string) : option decimal :=
  match s with
  | EmptyString => None
  | String c rest =>
      let '(sign, body) :=
        if Ascii.eqb c "+" then (false, rest)
        else if Ascii.eqb c "-" then (true, rest)
        else (false, s) in
      match set_digits body false false 0 0 0 with
      | None => None
      | Some (tl, sawdot, sawdigits, m, n, p) =>
          if negb sawdigits then None
          else
            let p := if sawdot then p else n in
            match set_exponent tl with
            | None => None
            | Some (EmptyString, e) =>
                Some {| neg := sign; mant := m; nd := n; dp := p + e |}
            | Some (String _ _, _) => None
            end
      end
  end.

(** [floatBits]: the decimal rounded to the nearest binary float of
    precision [prec] and exponent bound [emax], ties to even, and
    whether it overflowed.  The source reaches the result by shifting
    the decimal; the value [mant * 10^(dp - nd)] is rounded directly
    here.  The two early exits on [dp] are the source's. *)
Definition floatBits (prec emax : Z) (d : decimal) : spec_float * bool :=
  if nd d =? 0 then (S754_zero (neg d), false)
  else if 310 <? dp d then (S754_infinity (neg d), true)
  else if dp d <? -330 then (S754_zero (neg d), false)
  else
    let e10 := dp d - nd d in
    let f :=
      match mant d with
      | Zpos m =>
          if 0 <=? e10
          then binary_round prec emax (neg d) (m * Z.to_pos (10 ^ e10)) 0
          else
            let '(q, e', l) :=
              SFdiv_core_binary prec emax (Zpos m) 0 (10 ^ (- e10)) 0 in
            binary_round_aux prec emax (neg d) q e' l
      | _ => S754_zero (neg d)
      end in
    match f with
    | S754_infinity _ => (f, true)
    | _ => (f, false)
    end.

(** [atof32] and [atof64]: a special value, else the rounded decimal;
    0 and [ErrSyntax] for a malformed text, the infinity and [ErrRange]
    on overflow. *)
Definition atof (prec emax : Z) (s : string) : spec_float * option NumError :=
  match special s with
  | Some v => (v, None)
  | None =>
      match decimal_set s with
      | None => (S754_zero false, Some ErrSyntax)
      | Some d =>
          let '(f, ovf) := floatBits prec emax d in
          (f, if ovf then Some ErrRange else None)
      end
  end.

Definition atof32 : string -> float32 * option NumError := atof 24 128.
Definition atof64 : string -> float64 * option NumError := atof 53 1024.

(** The conversion [float64(f)] of a [float32], which is exact. *)
Definition float64_of_float32 (f : float32) : float64 :=
  match f with
  | S754_finite s m e => binary_round 53 1024 s m e
  | _ => f
  end.

(** [strconv.ParseFloat(s, bitSize)]. *)
Definition ParseFloat (s : string) (bitSize : Z) : float64 * option NumError :=
  if bitSize =? 32 then
    let '(f, err) := atof32 s in (float64_of_float32 f, err)
  else atof64 s.

(** *** FormatFloat (ftoa.go), verbs [e] and [E] *)

Record floatInfo := { mantbits : Z; expbits : Z; bias : Z }.
Definition float32info := {| mantbits := 23; expbits := 8; bias := -127 |}.
Definition float64info := {| mantbits := 52; expbits := 11; bias := -1023 |}.

(** The conversion [float32(val)]: round to nearest, ties to even; a
    value beyond the range of a float32 becomes an infinity. *)
Definition float32_of_float64 (f : float64) : float32 :=
  match f with
  | S754_finite s m e => binary_round 24 128 s m e
  | _ => f
  end.

(** [math.Float32bits] and [math.Float64bits]: the IEEE 754 encoding
    of a float in canonical form. *)
Definition float_bits (flt : floatInfo) (f : spec_float) : Z :=
  let top := Z.shiftl 1 (mantbits flt) in
  let sign (s : bool) :=
    if s then Z.shiftl 1 (mantbits flt + expbits flt) else 0 in
  let expmax := Z.shiftl 1 (expbits flt) - 1 in
  match f with
  | S754_zero s => sign s
  | S754_infinity s => sign s + Z.shiftl expmax (mantbits flt)
  | S754_nan => Z.shiftl expmax (mantbits flt) + Z.shiftl 1 (mantbits flt - 1)
  | S754_finite s m e =>
      sign s +
      (if top <=? Zpos m
       then Z.shiftl (e + mantbits flt - bias flt) (mantbits flt) + (Zpos m - top)
       else Zpos m)
  end.

(** The digits of a [decimal] after formatting decisions: the value is
    [0.d1d2...dn * 10^dp]. *)
Record decimalSlice := { d : list Z; ds_dp : Z }.

Fixpoint trim_rev (l : list Z) : list Z :=
  match l with
  | 0 :: rest => trim_rev rest
  | _ => l
  end.

(** [trim]: drop the trailing zeros. *)
Definition trim (l : list Z) : list Z := rev (trim_rev (rev l)).

(** The decimal [n * 10^e10], normalized. *)
Definition slice_of (n e10 : Z) : decimalSlice :=
  let ds := digits_of n in
  {| d := trim ds; ds_dp := Z.of_nat (List.length ds) + e10 |}.

(** [d.Assign(mant); d.Shift(k)]: [mant * 2^k] written exactly in
    decimal, as an integer and a power of ten. *)
Definition assign_shift (mant k : Z) : Z * Z :=
  if 0 <=? k then (mant * 2 ^ k, 0) else (mant * 5 ^ (- k), k).

(** The value [n * 10^e10] cut to [nd] digits: the candidate below, the
    candidate above, and how the value compares with their midpoint.
    [None] when [n] has no more than [nd] digits. *)
Definition cut (n e10 : Z) (nd : Z) : option (Z * Z * Z * comparison) :=
  let len := Z.of_nat (List.length (digits_of n)) in
  if len <=? nd then None
  else
    let p := 10 ^ (len - nd) in
    Some (n / p, n / p + 1, e10 + (len - nd), (2 * (n mod p) ?= p)).

(** [shouldRoundUp]: to nearest, an exact half to the even digit. *)
Definition nearest (lo hi : Z) (c : comparison) : Z :=
  match c with
  | Lt => lo
  | Gt => hi
  | Eq => if Z.even lo then lo else hi
  end.

(** [d.Round(nd)]. *)
Definition Round (n e10 nd : Z) : Z * Z :=
  match cut n e10 nd with
  | None => (n, e10)
  | Some (lo, hi, e, c) => (nearest lo hi c, e)
  end.

(** Whether the decimal [c * 10^e10] reads back, with [floatBits], as
    the float [mant * 2^k]. *)
Definition reads_back (flt : floatInfo) (mant k : Z) (c e10 : Z) : bool :=
  let prec := mantbits flt + 1 in
  let emax := Z.shiftl 1 (expbits flt - 1) in
  let len := Z.of_nat (List.length (digits_of c)) in
  match floatBits prec emax
          {| neg := false; mant := c; nd := len; dp := len + e10 |} with
  | (S754_finite _ m' e', _) =>
      let lowest := 3 - emax - prec in
      Zpos m' * 2 ^ (e' - lowest) =? mant * 2 ^ (k - lowest)
  | _ => false
  end.

(** [roundShortest]: the fewest digits that read back as the same
    float, and with that many digits the decimal nearest to the exact
    value ("the smallest number of digits necessary such that
    ParseFloat will return f exactly").  [fuel] bounds the number of
    digits tried; the exact decimal is the last resort. *)
Fixpoint roundShortest_from (fuel : nat) (flt : floatInfo) (mant k : Z)
    (n e10 : Z) (nd : Z) : Z * Z :=
  match fuel with
  | O => (n, e10)
  | S fuel' =>
      match cut n e10 nd with
      | None => (n, e10)
      | Some (lo, hi, e, c) =>
          let okdown := reads_back flt mant k lo e in
          let okup := reads_back flt mant k hi e in
          if okdown && okup then (nearest lo hi c, e)
          else if okdown then (lo, e)
          else if okup then (hi, e)
          else roundShortest_from fuel' flt mant k n e10 (nd + 1)
      end
  end.

Definition roundShortest (flt : floatInfo) (mant k : Z) : decimalSlice :=
  if mant =? 0 then {| d := []; ds_dp := 0 |}
  else
    let '(n, e10) := assign_shift mant k in
    let '(c, e) :=
      roundShortest_from (List.length (digits_of n)) flt mant k n e10 1 in
    slice_of c e.

Definition bytes_of_digits (l : list Z) : string :=
  string_of_bytes (map digit_byte l).

(** [fmtE]: [-d.dddde+dd] with [prec] digits after the point. *)
Definition fmtE (neg : bool) (digs : decimalSlice) (prec : Z) (fmt : ascii)
  : string :=
  let nd := Z.of_nat (List.length (d digs)) in
  let first := match d digs with [] => 0 | d0 :: _ => d0 end in
  let m := Z.min nd (prec + 1) in
  let more :=
    if 0 <? prec then
      "." ++ bytes_of_digits (firstn (Z.to_nat (m - 1)) (tl (d digs)))
          ++ bytes_of_digits (repeat 0 (Z.to_nat (prec - Z.max 1 m + 1)))
    else "" in
  let exp := if nd =? 0 then 0 else ds_dp digs - 1 in
  let esign := if exp <? 0 then "-" else "+" in
  let exp := Z.abs exp in
  let edigits :=
    if exp <? 10 then [0; exp]
    else if exp <? 100 then [exp / 10; exp mod 10]
    else [exp / 100; (exp / 10) mod 10; exp mod 10] in
  (if neg then "-" else "") ++ String (digit_byte first) more
    ++ String fmt (esign ++ bytes_of_digits edigits).

(** The verbs of [FormatFloat] that are modelled: ['e'] and ['E']. *)
Inductive verb := verb_e | verb_E.

Definition verb_byte (v : verb) : ascii :=
  match v with verb_e => "e" | verb_E => "E" end%char.

(** The body of [genericFtoa] once the bits of the float are known,
    for the verbs [e] and [E]: a negative [prec] asks for the shortest
    digits. *)
Definition format_bits (flt : floatInfo) (bits : Z) (fmt : verb) (prec : Z)
  : string :=
  let neg := negb (Z.shiftr bits (expbits flt + mantbits flt) =? 0) in
  let exp := Z.land (Z.shiftr bits (mantbits flt)) (Z.shiftl 1 (expbits flt) - 1) in
  let mant := Z.land bits (Z.shiftl 1 (mantbits flt) - 1) in
  if exp =? Z.shiftl 1 (expbits flt) - 1 then
    if negb (mant =? 0) then "NaN"
    else if neg then "-Inf" else "+Inf"
  else
    let '(exp, mant) :=
      if exp =? 0 then (exp + 1, mant)
      else (exp, Z.lor mant (Z.shiftl 1 (mantbits flt))) in
    let exp := exp + bias flt in
    let k := exp - mantbits flt in
    if prec <? 0 then
      let digs := roundShortest flt mant k in
      fmtE neg digs (Z.of_nat (List.length (d digs)) - 1) (verb_byte fmt)
    else
      let '(n, e10) := assign_shift mant k in
      let '(c, e) := Round n e10 (prec + 1) in
      fmtE neg (if mant =? 0 then {| d := []; ds_dp := 0 |} else slice_of c e)
           prec (verb_byte fmt).

(** [strconv.FormatFloat(f, fmt, prec, bitSize)] for the verbs [e] and
    [E]; [bitSize] is 32 or 64. *)
Definition FormatFloat (f : float64) (fmt : verb) (prec bitSize : Z)
  : string :=
  if bitSize =? 32
  then format_bits float32info
         (float_bits float32info (float32_of_float64 f)) fmt prec
  else format_bits float64info (float_bits float64info f) fmt prec.

End strconv.

(** ** prometheus (client_golang) *)

Module prometheus.

(** [prometheus.BuildFQName]. *)
Definition BuildFQName (namespace subsystem name : string) : string :=
  if String.eqb name "" then ""
  else if negb (String.eqb namespace "") && negb (String.eqb subsystem "")
  then strings.Join [namespace; subsystem; name] "_"
  else if negb (String.eqb namespace "")
  then strings.Join [namespace; name] "_"
  else if negb (String.eqb subsystem "")
  then strings.Join [subsystem; name] "_"
  else name.

(** A [*prometheus.Desc] without constant labels. *)
Record Desc := {
  fqName : string;
  help : string;
  variableLabels : list string
}.

(** [prometheus.NewDesc(fqName, help, variableLabels, nil)].  Its checks
    of the metric and label names, which the eleven descriptors pass,
    are left out. *)
Definition NewDesc (fqName help : string) (variableLabels : list string) : Desc :=
  {| fqName := fqName; help := help; variableLabels := variableLabels |}.

Inductive ValueType := CounterValue | GaugeValue | UntypedValue.

(** A [constMetric]: one sample. *)
Record Metric := {
  desc : Desc;
  valType : ValueType;
  val : float64;
  labelPairs : list (string * string)
}.

(** [LabelPairSorter]: label pairs are kept ordered by name. *)
Fixpoint insert_pair (p : string * string) (l : list (string * string))
  : list (string * string) :=
  match l with
  | [] => [p]
  | q :: rest =>
      if String.ltb (fst q) (fst p) || String.eqb (fst q) (fst p)
      then q :: insert_pair p rest
      else p :: l
  end.

Fixpoint sort_pairs (l : list (string * string)) : list (string * string) :=
  match l with
  | [] => []
  | p :: rest => insert_pair p (sort_pairs rest)
  end.

(** [makeLabelPairs]: each variable label with its value. *)
Definition makeLabelPairs (desc : Desc) (labelValues : list string)
  : list (string * string) :=
  sort_pairs (combine (variableLabels desc) labelValues).

(** The two errors of [validateLabelValues]:
    [errInconsistentCardinality], and the error that
    [fmt.Errorf] builds from the text [label value %q is not valid
    UTF-8] and the value refused.  The second is kept as the value it is
    built from; its text, in which the verb [%q] quotes the value, is
    not spelled out. *)
Inductive labelError :=
| errInconsistentCardinality
| errInvalidLabelValue (val : string).

(** [validateLabelValues(vals, expectedNumberOfValues)]: the number of
    values first, then each value in turn. *)
Definition validateLabelValues (vals : list string)
    (expectedNumberOfValues : nat) : option labelError :=
  if negb (List.length vals =? expectedNumberOfValues)%nat
  then Some errInconsistentCardinality
  else
    match find (fun val => negb (utf8.ValidString val)) vals with
    | Some val => Some (errInvalidLabelValue val)
    | None => None
    end.

(** [prometheus.NewConstMetric]: the sample, or the error of
    [validateLabelValues]. *)
Definition NewConstMetric (desc : Desc) (valueType : ValueType)
    (value : float64) (labelValues : list string) : Metric + labelError :=
  match validateLabelValues labelValues (List.length (variableLabels desc)) with
  | Some err => inr err
  | None => inl {| desc := desc; valType := valueType; val := value;
                   labelPairs := makeLabelPairs desc labelValues |}
  end.

(** The value of the label [name] of a sample. *)
Fixpoint lookup (name : string) (l : list (string * string)) : option string :=
  match l with
  | [] => None
  | (k, v) :: rest => if String.eqb k name then Some v else lookup name rest
  end.

Definition label (m : Metric) (name : string) : option string :=
  lookup name (labelPairs m).

End prometheus.

Import prometheus.

(** ** The descriptors (presto_exporter.go, lines 34-145) *)

Definition namespace := "presto_cluster".

Definition runningQueries :=
  NewDesc (BuildFQName namespace "" "running_queries")
    "Running requests of the presto cluster." ["hostname"].
Definition blockedQueries :=
  NewDesc (BuildFQName namespace "" "blocked_queries")
    "Blocked queries of the presto cluster." ["hostname"].
Definition queuedQueries :=
  NewDesc (BuildFQName namespace "" "queued_queries")
    "Queued queries of the presto cluster." ["hostname"].
Definition activeWorkers :=
  NewDesc (BuildFQName namespace "" "active_workers")
    "Active workers of the presto cluster." ["hostname"].
Definition runningDrivers :=
  NewDesc (BuildFQName namespace "" "running_drivers")
    "Running drivers of the presto cluster." ["hostname"].
Definition reservedMemory :=
  NewDesc (BuildFQName namespace "" "reserved_memory")
    "Reserved memory of the presto cluster." ["hostname"].
Definition totalInputRows :=
  NewDesc (BuildFQName namespace "" "total_input_rows")
    "Total input rows of the presto cluster." ["hostname"].
Definition totalInputBytes :=
  NewDesc (BuildFQName namespace "" "total_input_bytes")
    "Total input bytes of the presto cluster." ["hostname"].
Definition totalCpuTimeSecs :=
  NewDesc (BuildFQName namespace "" "total_cpu_time_secs")
    "Total cpu time of the presto cluster." ["hostname"].
Definition uptime :=
  NewDesc (BuildFQName namespace "" "uptime")
    "Total up time of the presto cluster." ["hostname"].
Definition querys :=
  NewDesc (BuildFQName namespace "" "querys")
    "Querys of the presto cluster."
    ["hostname"; "queryId"; "state"; "scheduled"; "query"; "queuedTime";
     "elapsedTime"; "executionTime"; "totalDrivers"; "rawInputDataSize";
     "cumulativeUserMemory"; "PeakUserMemoryReservation"; "totalCpuTime";
     "totalScheduledTime"].

(** [Describe]: the descriptors sent on the channel, in order. *)
Definition Describe (e : Exporter) : list Desc :=
  [runningQueries; blockedQueries; queuedQueries; activeWorkers;
   runningDrivers; reservedMemory; totalInputRows; totalInputBytes;
   totalCpuTimeSecs; uptime; querys].

(** ** Process state *)

(** The package-level variables set when the process starts:
    [var hostname, _ = os.Hostname()]. *)
Record Globals := { hostname : string }.

Definition startup (os_Hostname : string * option error) : Globals :=
  {| hostname := fst os_Hostname |}.

(** ** The upstream coordinator *)

(** The body of a response as [ioutil.ReadAll] sees it: the bytes read
    and the read error, if any. *)
Record ReadCloser := { data : string; read_error : option error }.

Record Response := { StatusCode : Z; Body : ReadCloser }.

Module ioutil.
Definition ReadAll (r : ReadCloser) : result string :=
  match read_error r with
  | Some e => Err e
  | None => Ok (data r)
  end.
End ioutil.

(** What [Collect] takes from outside the repository: the network, as
    a state [World] that [http.Get] consults and may change, and
    [json.Unmarshal] at the three destination types, which returns the
    decoded value or an error. *)
Class Upstream := {
  World : Type;
  http_Get : World -> string -> World * result Response;
  json_Unmarshal_ClusterExporter : string -> result ClusterExporter;
  json_Unmarshal_InfoExporter : string -> result InfoExporter;
  json_Unmarshal_Querys : string -> result (list Query)
}.

(** ** Effects of Collect *)

Inductive Level := ErrorLevel | InfoLevel.

(** How a statement ends: it falls through with a value, the function
    returns, or it panics.  The value of a panic is the one given to
    [panic]; in [Collect] that is always the error of
    [NewConstMetric]. *)
Inductive outcome (A : Type) : Type :=
| Next (a : A)
| Returned
| Panicked (err : labelError).
Arguments Next {A} a.
Arguments Returned {A}.
Arguments Panicked {A} err.

Section Effects.
Context {up : Upstream}.

(** The state of one [Collect] call: the upstream, the URLs requested
    so far, the lines logged and the samples sent on [ch]. *)
Record St := {
  world : World;
  requests : list string;
  logged : list (Level * string);
  sent : list Metric
}.

(** The state a call starts in: a channel of its own, nothing
    requested or logged yet. *)
Definition fresh (w : World) : St :=
  {| world := w; requests := []; logged := []; sent := [] |}.

Definition M (A : Type) : Type := St -> St * outcome A.

Definition ret {A} (a : A) : M A := fun s => (s, Next a).

Definition bind {A B} (m : M A) (f : A -> M B) : M B :=
  fun s =>
    match m s with
    | (s', Next a) => f a s'
    | (s', Returned) => (s', Returned)
    | (s', Panicked err) => (s', Panicked err)
    end.

(** The statement [return]. *)
Definition return_ {A} : M A := fun s => (s, Returned).

Definition panic {A} (err : labelError) : M A := fun s => (s, Panicked err).

(** [http.Get(url)]. *)
Definition Get (url : string) : M (result Response) :=
  fun s =>
    let '(w, r) := http_Get (world s) url in
    ({| world := w; requests := requests s ++ [url];
        logged := logged s; sent := sent s |}, Next r).

(** The verb [%s] applied to an [error] variable. *)
Definition fmt_s (err : option error) : string :=
  match err with
  | Some e => e
  | None => "%!s(<nil>)"
  end.

(** [log.Errorf("%s", err)]. *)
Definition log_Errorf_s (err : option error) : M unit :=
  fun s =>
    ({| world := world s; requests := requests s;
        logged := logged s ++ [(ErrorLevel, fmt_s err)]; sent := sent s |},
     Next tt).

(** [ch <- m]. *)
Definition send (m : Metric) : M unit :=
  fun s =>
    ({| world := world s; requests := requests s;
        logged := logged s; sent := sent s ++ [m] |}, Next tt).

(** [prometheus.MustNewConstMetric]: panics on an error. *)
Definition MustNewConstMetric (desc : Desc) (valueType : ValueType)
    (value : float64) (labelValues : list string) : M Metric :=
  match NewConstMetric desc valueType value labelValues with
  | inl m => ret m
  | inr err => panic err
  end.

(** [for _, v := range l { body }]. *)
Fixpoint for_range {A} (l : list A) (body : A -> M unit) : M unit :=
  match l with
  | [] => ret tt
  | v :: rest => bind (body v) (fun _ => for_range rest body)
  end.

End Effects.

Notation "x <- m ;; k" := (bind m (fun x => k))
  (at level 61, m at next level, right associativity).
Notation "m ;;; k" := (bind m (fun _ => k))
  (at level 61, right associativity).

(** ** Collect (presto_exporter.go, lines 195-300)

    The deferred [Body.Close()] calls are left out: nothing that is
    observed here, requests, log lines and samples, depends on them. *)

Section Collector.
Context {up : Upstream}.

(** The idiom [v, err := f(); if err != nil { log.Errorf("%s", err);
    return }]. *)
Definition or_return {A} (r : result A) : M A :=
  match r with
  | Err err => log_Errorf_s (Some err) ;;; return_
  | Ok a => ret a
  end.

(** The idiom [if resp.StatusCode != 200 { log.Errorf("%s", err);
    return }], where [err] is the variable assigned by the [http.Get]
    that has just succeeded. *)
Definition check_status (resp : Response) (err : option error) : M unit :=
  if negb (StatusCode resp =? 200)
  then log_Errorf_s err ;;; return_
  else ret tt.

(** [ch <- prometheus.MustNewConstMetric(desc, valueType, value,
    labelValues...)]. *)
Definition emit (desc : Desc) (valueType : ValueType) (value : float64)
    (labelValues : list string) : M unit :=
  m <- MustNewConstMetric desc valueType value labelValues ;;
  send m.

(** The label values of the sample of one query (lines 282-297). *)
Definition query_labels (g : Globals) (v : Query) : list string :=
  [ hostname g;
    QueryId v;
    State v;
    strconv.FormatBool (Scheduled v);
    Query_Query v;
    QueuedTime (QueryStats v);
    ElapsedTime (QueryStats v);
    ExecutionTime (QueryStats v);
    strconv.Itoa (TotalDrivers (QueryStats v));
    RawInputDataSize (QueryStats v);
    strconv.FormatFloat (CumulativeUserMemory (QueryStats v)) strconv.verb_E (-1) 32;
    PeakUserMemoryReservation (QueryStats v);
    TotalCpuTime (QueryStats v);
    TotalScheduledTime (QueryStats v) ].

Definition Collect (g : Globals) (e : Exporter) : M unit :=
  (* cluster *)
  clusterGet <- Get (uri e ++ "/v1/cluster") ;;
  clusterResp <- or_return clusterGet ;;
  check_status clusterResp None ;;;
  clusterBody <- or_return (ioutil.ReadAll (Body clusterResp)) ;;
  clusterExporter <- or_return (json_Unmarshal_ClusterExporter clusterBody) ;;
  (* info *)
  infoGet <- Get (uri e ++ "/v1/info") ;;
  infoResp <- or_return infoGet ;;
  check_status infoResp None ;;;
  infoBody <- or_return (ioutil.ReadAll (Body infoResp)) ;;
  infoExporter <- or_return (json_Unmarshal_InfoExporter infoBody) ;;
  (* query *)
  queryGet <- Get (uri e ++ "/v1/query") ;;
  queryResp <- or_return queryGet ;;
  check_status queryResp None ;;;
  queryBody <- or_return (ioutil.ReadAll (Body queryResp)) ;;
  decoded <- or_return (json_Unmarshal_Querys queryBody) ;;
  let queryExporter := {| Querys := decoded |} in
  emit runningQueries GaugeValue (RunningQueries clusterExporter) [hostname g] ;;;
  emit blockedQueries GaugeValue (BlockedQueries clusterExporter) [hostname g] ;;;
  emit queuedQueries GaugeValue (QueuedQueries clusterExporter) [hostname g] ;;;
  emit activeWorkers GaugeValue (ActiveWorkers clusterExporter) [hostname g] ;;;
  emit runningDrivers GaugeValue (RunningDrivers clusterExporter) [hostname g] ;;;
  emit reservedMemory GaugeValue (ReservedMemory clusterExporter) [hostname g] ;;;
  emit totalInputRows GaugeValue (TotalInputRows clusterExporter) [hostname g] ;;;
  emit totalInputBytes GaugeValue (TotalInputBytes clusterExporter) [hostname g] ;;;
  emit totalCpuTimeSecs GaugeValue (TotalCpuTimeSecs clusterExporter) [hostname g] ;;;
  let uptimeF :=
    fst (strconv.ParseFloat (strings.TrimSuffix (Uptime infoExporter) "d") 32) in
  emit uptime GaugeValue uptimeF [hostname g] ;;;
  for_range (Querys queryExporter) (fun v =>
    let labels := query_labels g v in
    emit querys GaugeValue (CumulativeUserMemory (QueryStats v)) labels).

(** One scrape: [Collect] run on a fresh channel against the upstream
    in state [w]. *)
Definition scrape (g : Globals) (e : Exporter) (w : World) : St * outcome unit :=
  Collect g e (fresh w).

Definition samples g e w : list Metric := sent (fst (scrape g e w)).
Definition requested g e w : list string := requests (fst (scrape g e w)).
Definition log_lines g e w : list (Level * string) := logged (fst (scrape g e w)).

End Collector.

(** ** What a scrape is expected to produce *)

(** Why a stage fails: the request itself, the status of the reply, the
    reading of its body, or the decoding of what was read. *)
Inductive failure :=
| NetworkError (err : error)
| BadStatus (code : Z)
| BodyReadError (err : error)
| DecodeError (err : error).

(** A text that [NewConstMetric] takes as a label value. *)
Definition valid_text (s : string) : Prop := utf8.ValidString s = true.

(** The fields of a query that become label values as they are. *)
Definition text_fields (v : Query) : list string :=
  [ QueryId v; State v; Query_Query v;
    QueuedTime (QueryStats v); ElapsedTime (QueryStats v);
    ExecutionTime (QueryStats v); RawInputDataSize (QueryStats v);
    PeakUserMemoryReservation (QueryStats v); TotalCpuTime (QueryStats v);
    TotalScheduledTime (QueryStats v) ].

(** A query whose texts are valid UTF-8, as every text decoded by
    [encoding/json] is. *)
Definition valid_query (v : Query) : Prop := Forall valid_text (text_fields v).

Section Expected.
Context {up : Upstream}.

Definition cluster_url (e : Exporter) : string := uri e ++ "/v1/cluster".
Definition info_url (e : Exporter) : string := uri e ++ "/v1/info".
Definition query_url (e : Exporter) : string := uri e ++ "/v1/query".
Definition urls (e : Exporter) : list string :=
  [cluster_url e; info_url e; query_url e].

(** The replies of the upstream to the three requests of a scrape that
    starts in state [w], each request finding the upstream as the
    previous one left it. *)
Definition cluster_reply (e : Exporter) (w : World) : World * result Response :=
  http_Get w (cluster_url e).
Definition info_reply (e : Exporter) (w : World) : World * result Response :=
  http_Get (fst (cluster_reply e w)) (info_url e).
Definition query_reply (e : Exporter) (w : World) : World * result Response :=
  http_Get (fst (info_reply e w)) (query_url e).

(** The four ways a stage fails on a reply. *)
Inductive stage_fails {T} (decode : string -> result T)
  : result Response -> failure -> Prop :=
| network_error err :
    stage_fails decode (Err err) (NetworkError err)
| bad_status resp :
    StatusCode resp <> 200 ->
    stage_fails decode (Ok resp) (BadStatus (StatusCode resp))
| body_read_error resp err :
    StatusCode resp = 200 ->
    read_error (Body resp) = Some err ->
    stage_fails decode (Ok resp) (BodyReadError err)
| decode_error resp err :
    StatusCode resp = 200 ->
    read_error (Body resp) = None ->
    decode (data (Body resp)) = Err err ->
    stage_fails decode (Ok resp) (DecodeError err).

(** A stage succeeds with the snapshot [v]. *)
Definition stage_yields {T} (decode : string -> result T)
    (r : result Response) (v : T) : Prop :=
  exists resp,
    r = Ok resp /\ StatusCode resp = 200 /\
    read_error (Body resp) = None /\ decode (data (Body resp)) = Ok v.

Definition cluster_yields e w c :=
  stage_yields json_Unmarshal_ClusterExporter (snd (cluster_reply e w)) c.
Definition info_yields e w i :=
  stage_yields json_Unmarshal_InfoExporter (snd (info_reply e w)) i.
Definition query_yields e w q :=
  stage_yields json_Unmarshal_Querys (snd (query_reply e w)) q.

Definition cluster_fails e w f :=
  stage_fails json_Unmarshal_ClusterExporter (snd (cluster_reply e w)) f.
Definition info_fails e w f :=
  stage_fails json_Unmarshal_InfoExporter (snd (info_reply e w)) f.
Definition query_fails e w f :=
  stage_fails json_Unmarshal_Querys (snd (query_reply e w)) f.

(** The scrape fails at its [n]-th stage with [f], the earlier stages
    having succeeded. *)
Inductive scrape_fails (e : Exporter) (w : World) : nat -> failure -> Prop :=
| fails_at_cluster f :
    cluster_fails e w f -> scrape_fails e w 1 f
| fails_at_info c f :
    cluster_yields e w c -> info_fails e w f -> scrape_fails e w 2 f
| fails_at_query c i f :
    cluster_yields e w c -> info_yields e w i -> query_fails e w f ->
    scrape_fails e w 3 f.

(** All three stages succeed. *)
Definition scrape_succeeds e w c i q : Prop :=
  cluster_yields e w c /\ info_yields e w i /\ query_yields e w q.

(** A gauge sample whose only label is the hostname. *)
Definition host_gauge (g : Globals) (desc : Desc) (v : float64) : Metric :=
  {| desc := desc; valType := GaugeValue; val := v;
     labelPairs := [("hostname", hostname g)] |}.

Definition cluster_gauges (g : Globals) (c : ClusterExporter) : list Metric :=
  [ host_gauge g runningQueries (RunningQueries c);
    host_gauge g blockedQueries (BlockedQueries c);
    host_gauge g queuedQueries (QueuedQueries c);
    host_gauge g activeWorkers (ActiveWorkers c);
    host_gauge g runningDrivers (RunningDrivers c);
    host_gauge g reservedMemory (ReservedMemory c);
    host_gauge g totalInputRows (TotalInputRows c);
    host_gauge g totalInputBytes (TotalInputBytes c);
    host_gauge g totalCpuTimeSecs (TotalCpuTimeSecs c) ].

(** The value of the uptime gauge for an uptime text (line 278). *)
Definition uptime_value (s : string) : float64 :=
  fst (strconv.ParseFloat (strings.TrimSuffix s "d") 32).

Definition uptime_gauge (g : Globals) (i : InfoExporter) : Metric :=
  host_gauge g uptime (uptime_value (Uptime i)).

(** The sample of one query. *)
Definition query_gauge (g : Globals) (v : Query) : Metric :=
  {| desc := querys; valType := GaugeValue;
     val := CumulativeUserMemory (QueryStats v);
     labelPairs := makeLabelPairs querys (query_labels g v) |}.

Definition all_gauges g c i (q : list Query) : list Metric :=
  cluster_gauges g c ++ [uptime_gauge g i] ++ map (query_gauge g) q.

(** The error, if any, that stops the loop over the queries: the one of
    the first query with a label value that [NewConstMetric] refuses. *)
Fixpoint queries_error (g : Globals) (q : list Query) : option labelError :=
  match q with
  | [] => None
  | v :: rest =>
      match validateLabelValues (query_labels g v)
              (List.length (variableLabels querys)) with
      | Some err => Some err
      | None => queries_error g rest
      end
  end.

(** The queries before that one. *)
Fixpoint queries_sent (g : Globals) (q : list Query) : list Query :=
  match q with
  | [] => []
  | v :: rest =>
      match validateLabelValues (query_labels g v)
              (List.length (variableLabels querys)) with
      | Some _ => []
      | None => v :: queries_sent g rest
      end
  end.

(** What lines 269-299 send: nothing when the host name is refused,
    as it is already for the first sample; otherwise the ten gauges
    labelled with the host name alone and the samples of the queries up
    to the first one refused. *)
Definition sent_gauges g c i (q : list Query) : list Metric :=
  if utf8.ValidString (hostname g)
  then cluster_gauges g c ++ [uptime_gauge g i]
       ++ map (query_gauge g) (queries_sent g q)
  else [].

(** How lines 269-299 end. *)
Definition emit_end (g : Globals) (q : list Query) : outcome unit :=
  if utf8.ValidString (hostname g)
  then match queries_error g q with
       | Some err => Panicked err
       | None => Next tt
       end
  else Panicked (errInvalidLabelValue (hostname g)).

(** One stage after its request: check, read, decode, then continue
    with the snapshot. *)
Definition after_get {T B} (decode : string -> result T)
    (r : result Response) (k : T -> M B) : M B :=
  resp <- or_return r ;;
  check_status resp None ;;;
  body <- or_return (ioutil.ReadAll (Body resp)) ;;
  v <- or_return (decode body) ;;
  k v.

(** The emitting part of [Collect] (lines 269-299). *)
Definition emit_all (g : Globals) (c : ClusterExporter) (i : InfoExporter)
    (q : list Query) : M unit :=
  emit runningQueries GaugeValue (RunningQueries c) [hostname g] ;;;
  emit blockedQueries GaugeValue (BlockedQueries c) [hostname g] ;;;
  emit queuedQueries GaugeValue (QueuedQueries c) [hostname g] ;;;
  emit activeWorkers GaugeValue (ActiveWorkers c) [hostname g] ;;;
  emit runningDrivers GaugeValue (RunningDrivers c) [hostname g] ;;;
  emit reservedMemory GaugeValue (ReservedMemory c) [hostname g] ;;;
  emit totalInputRows GaugeValue (TotalInputRows c) [hostname g] ;;;
  emit totalInputBytes GaugeValue (TotalInputBytes c) [hostname g] ;;;
  emit totalCpuTimeSecs GaugeValue (TotalCpuTimeSecs c) [hostname g] ;;;
  emit uptime GaugeValue (uptime_value (Uptime i)) [hostname g] ;;;
  for_range q (fun v =>
    emit querys GaugeValue (CumulativeUserMemory (QueryStats v))
         (query_labels g v)).

(** What the log line of a failure is in [Collect]: the error in the
    variable [err], which is nil where the status is checked. *)
Definition logged_for (f : failure) : string :=
  match f with
  | NetworkError err => fmt_s (Some err)
  | BadStatus _ => fmt_s None
  | BodyReadError err => fmt_s (Some err)
  | DecodeError err => fmt_s (Some err)
  end.

(** The state [s] after a further exchange with the upstream. *)
Definition extend (s : St) (w : World) (reqs : list string)
    (lines : list (Level * string)) (ms : list Metric) : St :=
  {| world := w; requests := requests s ++ reqs;
     logged := logged s ++ lines; sent := sent s ++ ms |}.

End Expected.

(** ** Scientific notation *)

(** A decimal digit. *)
Definition in_0_9 (x : Z) : Prop := 0 <= x <= 9.

(** A text in scientific notation: an optional [-], one digit,
    optionally a point and at least one digit, [E], a sign, and at
    least two digits of exponent. *)
Definition sci_notation (s : string) : Prop :=
  exists (neg : bool) (d0 : Z) (frac : list Z) (eneg : bool) (edigs : list Z),
    in_0_9 d0
    /\ Forall in_0_9 frac
    /\ Forall in_0_9 edigs
    /\ (2 <= List.length edigs)%nat
    /\ s = (if neg then "-" else EmptyString)
           ++ String (digit_byte d0)
                ((match frac with
                  | [] => EmptyString
                  | _ => "." ++ strconv.bytes_of_digits frac
                  end)
                 ++ String "E" ((if eneg then "-" else "+")
                                ++ strconv.bytes_of_digits edigs)).

(** The exponent field of the bits of a float32. *)
Definition exp_field32 (bits : Z) : Z := Z.shiftr bits 23 mod 2 ^ 8.

(** ** Series and label order *)

(** What identifies a series in an exposition: the name of the metric
    and the label pairs of the sample. *)
Definition series (m : Metric) : string * list (string * string) :=
  (fqName (desc m), labelPairs m).

(** A sample without its [hostname] label. *)
Definition without_hostname (m : Metric)
  : Desc * ValueType * float64 * list (string * string) :=
  (desc m, valType m, val m,
   filter (fun p => negb (String.eqb (fst p) "hostname")) (labelPairs m)).

(** The order of [LabelPairSorter]: by name. *)
Definition name_le (p q : string * string) : Prop :=
  String.ltb (fst p) (fst q) || String.eqb (fst p) (fst q) = true.

(** The bytes that occur in a text [ParseFloat] accepts: digits, the
    point, the signs, the exponent mark and, in either case, the
    letters of [inf], [infinity] and [nan]. *)
Definition accepted_byte (c : ascii) : bool :=
  is_digit c
  || existsb (Ascii.eqb (strconv.to_lower c))
       ["."; "+"; "-"; "e"; "i"; "n"; "f"; "t"; "y"; "a"]%char.

(** The integer that a decimal text writes, with an optional [-] in
    front: the reading that undoes [strconv.Itoa]. *)
Definition read_decimal (s : string) : Z :=
  match s with
  | EmptyString => 0
  | String c rest =>
      if Ascii.eqb c "-"
      then - digits_value (map digit_val (list_ascii_of_string rest))
      else digits_value (map digit_val (list_ascii_of_string s))
  end.

(** ** A scripted coordinator

    A concrete upstream for running [Collect]: it answers each of the
    three URLs with a fixed reply, counts the requests it has served,
    and decodes exactly the bodies it serves. *)

Module Scripted.

Definition base : string := "http://localhost:8080".
Definition exporter : Exporter := {| uri := base |}.
Definition globals : Globals := startup ("presto-coordinator-1", None).

Definition quoted (s : string) : string :=
  String (ascii_of_nat 34) (s ++ String (ascii_of_nat 34) EmptyString).

Definition cluster_body : string :=
  "{" ++ quoted "runningQueries" ++ ":3," ++ quoted "blockedQueries" ++ ":1,"
      ++ quoted "queuedQueries" ++ ":2," ++ quoted "activeWorkers" ++ ":8,"
      ++ quoted "runningDrivers" ++ ":40," ++ quoted "reservedMemory" ++ ":1024,"
      ++ quoted "totalInputRows" ++ ":5000," ++ quoted "totalInputBytes" ++ ":65536,"
      ++ quoted "totalCpuTimeSecs" ++ ":12.5}".

Definition cluster_snapshot : ClusterExporter :=
  {| RunningQueries := dyadic 3 0; BlockedQueries := dyadic 1 0;
     QueuedQueries := dyadic 2 0; ActiveWorkers := dyadic 8 0;
     RunningDrivers := dyadic 40 0; ReservedMemory := dyadic 1024 0;
     TotalInputRows := dyadic 5000 0; TotalInputBytes := dyadic 65536 0;
     TotalCpuTimeSecs := dyadic 25 (-1) |}.

Definition info_body (up_time : string) : string :=
  "{" ++ quoted "uptime" ++ ":" ++ quoted up_time ++ "}".

Definition info_snapshot (up_time : string) : InfoExporter :=
  {| NodeVersion_Version := EmptyString; Environment := EmptyString;
     Coordinator := false; Starting := false; Uptime := up_time |}.

Definition query_record (mem : float64) : Query :=
  {| QueryId := "20181101_000001_00001_abcde";
     State := "RUNNING";
     Scheduled := true;
     Query_Query := "SELECT count(*) FROM orders";
     QueryStats :=
       {| QueuedTime := "1.05ms"; ElapsedTime := "3.20s";
          ExecutionTime := "3.19s"; TotalDrivers := 7;
          RawInputDataSize := "12.5MB"; CumulativeUserMemory := mem;
          PeakUserMemoryReservation := "2MB"; TotalCpuTime := "1.50s";
          TotalScheduledTime := "2.75s" |} |}.

(** The replies of the coordinator and what its bodies decode to. *)
Record script := {
  cluster : result Response;
  info : result Response;
  query : result Response;
  info_decoded : result InfoExporter;
  query_decoded : result (list Query)
}.

Definition ok (body : string) : result Response :=
  Ok {| StatusCode := 200;
        Body := {| data := body; read_error := None |} |}.

Definition status (code : Z) : result Response :=
  Ok {| StatusCode := code;
        Body := {| data := EmptyString; read_error := None |} |}.

Definition serve (sc : script) (served : nat) (url : string)
  : nat * result Response :=
  (S served,
   if String.eqb url (base ++ "/v1/cluster") then cluster sc
   else if String.eqb url (base ++ "/v1/info") then info sc
   else if String.eqb url (base ++ "/v1/query") then query sc
   else Err "connection refused").

Definition decode_cluster (body : string) : result ClusterExporter :=
  if String.eqb body cluster_body then Ok cluster_snapshot
  else Err "unexpected end of JSON input".

Definition upstream (sc : script) : Upstream :=
  {| World := nat;
     http_Get := serve sc;
     json_Unmarshal_ClusterExporter := decode_cluster;
     json_Unmarshal_InfoExporter := fun _ => info_decoded sc;
     json_Unmarshal_Querys := fun _ => query_decoded sc |}.

(** A healthy coordinator with the given uptime and queries. *)
Definition healthy (up_time : string) (qs : list Query) : script :=
  {| cluster := ok cluster_body;
     info := ok (info_body up_time);
     query := ok "[...]";
     info_decoded := Ok (info_snapshot up_time);
     query_decoded := Ok qs |}.

(** The same coordinator with one reply replaced. *)
Definition with_cluster (r : result Response) (sc : script) : script :=
  {| cluster := r; info := info sc; query := query sc;
     info_decoded := info_decoded sc; query_decoded := query_decoded sc |}.
Definition with_info (r : result Response) (sc : script) : script :=
  {| cluster := cluster sc; info := r; query := query sc;
     info_decoded := info_decoded sc; query_decoded := query_decoded sc |}.
Definition with_query (r : result Response) (sc : script) : script :=
  {| cluster := cluster sc; info := info sc; query := r;
     info_decoded := info_decoded sc; query_decoded := query_decoded sc |}.

End Scripted.

(** ** The shape of a scrape *)

Section Shape.
Context {up : Upstream}.

Lemma Collect_unfold g e :
  Collect g e =
  (r1 <- Get (cluster_url e) ;;
   after_get json_Unmarshal_ClusterExporter r1 (fun c =>
   r2 <- Get (info_url e) ;;
   after_get json_Unmarshal_InfoExporter r2 (fun i =>
   r3 <- Get (query_url e) ;;
   after_get json_Unmarshal_Querys r3 (fun q =>
   emit_all g c i q)))).
Proof. reflexivity. Qed.

Lemma extend_nothing s : extend s (world s) [] [] [] = s.
Proof. destruct s. unfold extend. cbn. now rewrite !app_nil_r. Qed.

Lemma extend_extend s w reqs lines ms w' reqs' lines' ms' :
  extend (extend s w reqs lines ms) w' reqs' lines' ms'
  = extend s w' (reqs ++ reqs') (lines ++ lines') (ms ++ ms').
Proof. unfold extend. cbn. now rewrite !app_assoc. Qed.

Lemma world_extend s w reqs lines ms :
  world (extend s w reqs lines ms) = w.
Proof. reflexivity. Qed.

Lemma Get_run url s :
  Get url s =
  (extend s (fst (http_Get (world s) url)) [url] [] [],
   Next (snd (http_Get (world s) url))).
Proof.
  unfold Get, extend. destruct (http_Get (world s) url).
  cbn. now rewrite !app_nil_r.
Qed.

Lemma after_get_fails {T B} (decode : string -> result T) r f (k : T -> M B) s :
  stage_fails decode r f ->
  after_get decode r k s
  = (extend s (world s) [] [(ErrorLevel, logged_for f)] [], Returned).
Proof.
  intros H. unfold after_get, bind, or_return, check_status, ioutil.ReadAll.
  unfold extend. rewrite !app_nil_r.
  destruct H as [err | resp Hs | resp err Hs Hr | resp err Hs Hr Hd]; cbn.
  - reflexivity.
  - apply Z.eqb_neq in Hs. rewrite Hs. reflexivity.
  - apply Z.eqb_eq in Hs. rewrite Hs, Hr. reflexivity.
  - apply Z.eqb_eq in Hs. rewrite Hs, Hr. cbn. rewrite Hd. reflexivity.
Qed.

Lemma after_get_yields {T B} (decode : string -> result T) r (k : T -> M B) s v :
  stage_yields decode r v -> after_get decode r k s = k v s.
Proof.
  intros (resp & -> & Hs & Hr & Hd).
  unfold after_get, bind, or_return, check_status, ioutil.ReadAll. cbn.
  apply Z.eqb_eq in Hs. rewrite Hs, Hr. cbn. rewrite Hd. reflexivity.
Qed.

(** Every reply either fails its stage or yields a snapshot. *)
Lemma stage_fails_or_yields {T} (decode : string -> result T) r :
  (exists f, stage_fails decode r f) \/ (exists v, stage_yields decode r v).
Proof.
  destruct r as [resp | err]; [| left; eexists; constructor].
  destruct (Z.eq_dec (StatusCode resp) 200) as [Hs | Hs];
    [| left; eexists; now constructor].
  destruct (read_error (Body resp)) as [err |] eqn:Hr;
    [left; eexists; eapply body_read_error; eauto |].
  destruct (decode (data (Body resp))) as [v | err] eqn:Hd.
  - right. exists v, resp. auto.
  - left. eexists. eapply decode_error; eauto.
Qed.

Lemma stage_fails_not_yields {T} (decode : string -> result T) r f v :
  stage_fails decode r f -> stage_yields decode r v -> False.
Proof.
  intros Hf (resp & -> & Hs & Hr & Hd).
  inversion Hf; subst; congruence.
Qed.

Lemma stage_yields_unique {T} (decode : string -> result T) r v v' :
  stage_yields decode r v -> stage_yields decode r v' -> v = v'.
Proof.
  intros (resp & -> & _ & _ & Hd) (resp' & E & _ & _ & Hd').
  injection E as <-. congruence.
Qed.

(** One [ch <- MustNewConstMetric(...)]: the sample is sent, or the
    call panics with the error of [NewConstMetric] and nothing is
    sent. *)
Lemma emit_run d0 vt v labels s :
  emit d0 vt v labels s
  = match NewConstMetric d0 vt v labels with
    | inl m => (extend s (world s) [] [] [m], Next tt)
    | inr err => (s, Panicked err)
    end.
Proof.
  unfold emit, bind, MustNewConstMetric.
  destruct (NewConstMetric d0 vt v labels); cbn; [| reflexivity].
  unfold extend. now rewrite !app_nil_r.
Qed.

(** The sample of a descriptor whose only label is [hostname]. *)
Lemma host_sample g d0 v :
  variableLabels d0 = ["hostname"] ->
  NewConstMetric d0 GaugeValue v [hostname g]
  = if utf8.ValidString (hostname g)
    then inl (host_gauge g d0 v)
    else inr (errInvalidLabelValue (hostname g)).
Proof.
  intros H. unfold NewConstMetric, validateLabelValues, makeLabelPairs.
  rewrite H. cbn. now destruct (utf8.ValidString (hostname g)).
Qed.

(** The sample of one query: fourteen values for the fourteen labels of
    [querys], each of which has to be valid. *)
Lemma query_sample g v :
  NewConstMetric querys GaugeValue (CumulativeUserMemory (QueryStats v))
    (query_labels g v)
  = match validateLabelValues (query_labels g v)
            (List.length (variableLabels querys)) with
    | Some err => inr err
    | None => inl (query_gauge g v)
    end.
Proof. reflexivity. Qed.

Lemma for_range_queries g q s :
  for_range q (fun v =>
    emit querys GaugeValue (CumulativeUserMemory (QueryStats v))
         (query_labels g v)) s
  = (extend s (world s) [] [] (map (query_gauge g) (queries_sent g q)),
     match queries_error g q with
     | Some err => Panicked err
     | None => Next tt
     end).
Proof.
  revert s. induction q as [| v q IH]; intros s.
  - cbn [for_range map queries_sent queries_error]. now rewrite extend_nothing.
  - cbn [for_range queries_sent queries_error]. unfold bind at 1.
    rewrite emit_run, query_sample.
    destruct (validateLabelValues (query_labels g v)
                (List.length (variableLabels querys))) as [err |].
    + cbn [map]. now rewrite extend_nothing.
    + rewrite IH. rewrite world_extend, extend_extend. reflexivity.
Qed.

Lemma emit_all_run g c i q s :
  emit_all g c i q s
  = (extend s (world s) [] [] (sent_gauges g c i q), emit_end g q).
Proof.
  unfold emit_all, sent_gauges, emit_end.
  destruct (utf8.ValidString (hostname g)) eqn:Hv.
  - repeat (unfold bind at 1; rewrite emit_run, host_sample by reflexivity;
            rewrite Hv; rewrite ?world_extend).
    rewrite for_range_queries. rewrite ?world_extend, !extend_extend.
    reflexivity.
  - unfold bind at 1. rewrite emit_run, host_sample by reflexivity.
    rewrite Hv. now rewrite extend_nothing.
Qed.

Ltac next_stage H :=
  unfold bind at 1; rewrite Get_run; cbv beta iota;
  rewrite ?world_extend;
  unfold cluster_yields, info_yields, query_yields,
    cluster_fails, info_fails, query_fails,
    query_reply, info_reply, cluster_reply in H |- *;
  first [ rewrite (after_get_yields _ _ _ _ _ H)
        | rewrite (after_get_fails _ _ _ _ _ H) ].

Lemma Collect_fails_cluster g e s f :
  cluster_fails e (world s) f ->
  Collect g e s =
  (extend s (fst (cluster_reply e (world s))) [cluster_url e]
     [(ErrorLevel, logged_for f)] [], Returned).
Proof.
  intros H. rewrite Collect_unfold.
  next_stage H. now rewrite extend_extend.
Qed.

Lemma Collect_fails_info g e s c f :
  cluster_yields e (world s) c -> info_fails e (world s) f ->
  Collect g e s =
  (extend s (fst (info_reply e (world s))) [cluster_url e; info_url e]
     [(ErrorLevel, logged_for f)] [], Returned).
Proof.
  intros Hc H. rewrite Collect_unfold.
  next_stage Hc. next_stage H.
  now rewrite !extend_extend.
Qed.

Lemma Collect_fails_query g e s c i f :
  cluster_yields e (world s) c -> info_yields e (world s) i ->
  query_fails e (world s) f ->
  Collect g e s =
  (extend s (fst (query_reply e (world s)))
     [cluster_url e; info_url e; query_url e]
     [(ErrorLevel, logged_for f)] [], Returned).
Proof.
  intros Hc Hi H. rewrite Collect_unfold.
  next_stage Hc. next_stage Hi. next_stage H.
  now rewrite !extend_extend.
Qed.

Lemma Collect_ok g e s c i q :
  scrape_succeeds e (world s) c i q ->
  Collect g e s =
  (extend s (fst (query_reply e (world s)))
     [cluster_url e; info_url e; query_url e] []
     (sent_gauges g c i q), emit_end g q).
Proof.
  intros (Hc & Hi & Hq). rewrite Collect_unfold.
  next_stage Hc. next_stage Hi. next_stage Hq.
  rewrite emit_all_run. now rewrite !extend_extend.
Qed.

End Shape.

(** ** Properties of a scrape *)

Section Scrape.
Context {up : Upstream}.

Lemma scrape_fails_run g e w n f :
  scrape_fails e w n f ->
  exists w',
    scrape g e w =
    ({| world := w'; requests := firstn n (urls e);
        logged := [(ErrorLevel, logged_for f)]; sent := [] |}, Returned).
Proof.
  unfold scrape.
  intros [f' H | c f' Hc H | c i f' Hc Hi H]; eexists.
  - now rewrite (Collect_fails_cluster g e (fresh w) f' H).
  - now rewrite (Collect_fails_info g e (fresh w) c f' Hc H).
  - now rewrite (Collect_fails_query g e (fresh w) c i f' Hc Hi H).
Qed.

Lemma scrape_succeeds_run g e w c i q :
  scrape_succeeds e w c i q ->
  scrape g e w =
  ({| world := fst (query_reply e w); requests := urls e;
      logged := []; sent := sent_gauges g c i q |}, emit_end g q).
Proof.
  intros H. unfold scrape.
  now rewrite (Collect_ok g e (fresh w) c i q H).
Qed.

(** A scrape fails at some stage or succeeds. *)
Lemma scrape_fails_or_succeeds e w :
  (exists n f, scrape_fails e w n f)
  \/ (exists c i q, scrape_succeeds e w c i q).
Proof.
  destruct (stage_fails_or_yields json_Unmarshal_ClusterExporter
              (snd (cluster_reply e w))) as [[f Hc] | [c Hc]].
  { left. exists 1%nat, f. now constructor. }
  destruct (stage_fails_or_yields json_Unmarshal_InfoExporter
              (snd (info_reply e w))) as [[f Hi] | [i Hi]].
  { left. exists 2%nat, f. econstructor; eauto. }
  destruct (stage_fails_or_yields json_Unmarshal_Querys
              (snd (query_reply e w))) as [[f Hq] | [q Hq]].
  { left. exists 3%nat, f. econstructor; eauto. }
  right. exists c, i, q. repeat split; assumption.
Qed.

Lemma samples_of_failure g e w n f :
  scrape_fails e w n f -> samples g e w = [].
Proof.
  intros H. unfold samples.
  destruct (scrape_fails_run g e w n f H) as [w' ->]. reflexivity.
Qed.

Lemma samples_of_success g e w c i q :
  scrape_succeeds e w c i q -> samples g e w = sent_gauges g c i q.
Proof.
  intros H. unfold samples. now rewrite (scrape_succeeds_run g e w c i q H).
Qed.

(** The samples sent are a beginning of the full set. *)
Lemma queries_sent_prefix g q :
  exists rest, q = (queries_sent g q ++ rest)%list.
Proof.
  induction q as [| v q [rest IH]]; [now exists [] |].
  cbn [queries_sent].
  destruct (validateLabelValues (query_labels g v)
              (List.length (variableLabels querys))).
  - now exists (v :: q).
  - exists rest. cbn. now rewrite <- IH.
Qed.

Lemma sent_gauges_prefix g c i q :
  exists rest, all_gauges g c i q = (sent_gauges g c i q ++ rest)%list.
Proof.
  unfold sent_gauges, all_gauges.
  destruct (utf8.ValidString (hostname g)); [| now eexists].
  destruct (queries_sent_prefix g q) as [rest Hq].
  exists (map (query_gauge g) rest).
  rewrite Hq at 1. rewrite map_app, <- !app_assoc. reflexivity.
Qed.

Lemma Forall_sent_gauges (P : Metric -> Prop) g c i q :
  Forall P (all_gauges g c i q) -> Forall P (sent_gauges g c i q).
Proof.
  destruct (sent_gauges_prefix g c i q) as [rest ->].
  intros H. now apply Forall_app in H.
Qed.

(** With a valid host name the ten gauges labelled with it are sent. *)
Lemma sent_gauges_host g c i q :
  valid_text (hostname g) ->
  sent_gauges g c i q
  = (cluster_gauges g c ++ [uptime_gauge g i]
     ++ map (query_gauge g) (queries_sent g q))%list.
Proof. unfold valid_text, sent_gauges. now intros ->. Qed.

Lemma queries_sent_all g q :
  queries_error g q = None -> queries_sent g q = q.
Proof.
  induction q as [| v q IH]; [reflexivity |].
  cbn [queries_sent queries_error].
  destruct (validateLabelValues (query_labels g v)
              (List.length (variableLabels querys))); [discriminate |].
  intros H. now rewrite IH.
Qed.

(** [Collect] runs to its end only when every sample was accepted. *)
Lemma emit_end_Next g q :
  emit_end g q = Next tt ->
  valid_text (hostname g) /\ queries_sent g q = q.
Proof.
  unfold emit_end, valid_text.
  destruct (utf8.ValidString (hostname g)); [| discriminate].
  destruct (queries_error g q) eqn:E; [discriminate |].
  intros _. split; [reflexivity | now apply queries_sent_all].
Qed.

Lemma sent_gauges_Next g c i q :
  emit_end g q = Next tt -> sent_gauges g c i q = all_gauges g c i q.
Proof.
  intros H. destruct (emit_end_Next g q H) as [Hh Hq].
  rewrite (sent_gauges_host g c i q Hh). now rewrite Hq.
Qed.

(** The fourteen label values of a query are as many as [querys] has
    labels, so the only error of its sample is a value that is not
    valid UTF-8. *)
Lemma query_labels_error g v err :
  validateLabelValues (query_labels g v)
    (List.length (variableLabels querys)) = Some err ->
  exists val,
    err = errInvalidLabelValue val
    /\ In val (query_labels g v) /\ utf8.ValidString val = false.
Proof.
  unfold validateLabelValues.
  assert ((List.length (query_labels g v)
           =? List.length (variableLabels querys))%nat = true) as ->
    by reflexivity.
  cbn [negb].
  destruct (find (fun val => negb (utf8.ValidString val)) (query_labels g v))
    as [val |] eqn:E; [| discriminate].
  intros [= <-]. apply find_some in E. destruct E as [Hin Hb].
  exists val. split; [reflexivity |]. split; [assumption |].
  now apply negb_true_iff.
Qed.

Lemma queries_error_invalid g q err :
  queries_error g q = Some err ->
  exists val, err = errInvalidLabelValue val /\ utf8.ValidString val = false.
Proof.
  induction q as [| v q IH]; [discriminate |].
  cbn [queries_error].
  destruct (validateLabelValues (query_labels g v)
              (List.length (variableLabels querys))) as [err' |] eqn:E;
    [| exact IH].
  intros [= <-].
  destruct (query_labels_error g v err' E) as (val & -> & _ & Hval). eauto.
Qed.

(** How [emit_end] ends: at the end, or in a panic on a label value
    that is not valid UTF-8. *)
Lemma emit_end_cases g q :
  emit_end g q = Next tt
  \/ exists val,
       emit_end g q = Panicked (errInvalidLabelValue val)
       /\ utf8.ValidString val = false.
Proof.
  unfold emit_end.
  destruct (utf8.ValidString (hostname g)) eqn:Hv; [| right; eauto].
  destruct (queries_error g q) as [err |] eqn:E; [| now left].
  destruct (queries_error_invalid g q err E) as (val & -> & Hval).
  right. eauto.
Qed.

(** C1: when a stage of [Collect] fails, for whichever of the four
    reasons, no sample is sent and no request follows the one that
    failed; when the three stages succeed the three requests have been
    made and, if [Collect] then runs to its end, the full set is sent;
    and samples are sent only when the three stages succeed. *)
Theorem Collect_all_or_nothing g e w :
  (forall n f, scrape_fails e w n f ->
     samples g e w = [] /\ requested g e w = firstn n (urls e))
  /\ (forall c i q, scrape_succeeds e w c i q ->
        requested g e w = urls e
        /\ (snd (scrape g e w) = Next tt ->
            samples g e w = all_gauges g c i q))
  /\ (samples g e w <> [] -> exists c i q, scrape_succeeds e w c i q).
Proof.
  split; [| split].
  - intros n f H. unfold samples, requested.
    destruct (scrape_fails_run g e w n f H) as [w' ->]. now split.
  - intros c i q H. unfold samples, requested.
    rewrite (scrape_succeeds_run g e w c i q H). split; [reflexivity |].
    cbn [fst snd sent]. apply sent_gauges_Next.
  - intros Hne.
    destruct (scrape_fails_or_succeeds e w) as [(n & f & H) | H]; [| exact H].
    now rewrite (samples_of_failure g e w n f H) in Hne.
Qed.

(** C2: on a successful scrape, one whose three stages succeed and
    that runs to its end, the first nine samples are the nine cluster
    gauges, each with the value of its field of the decoded cluster
    snapshot, unchanged, and with the hostname as its only label.  For
    these nine it is enough that the three stages succeed and the host
    name is valid UTF-8. *)
Theorem cluster_fields_identity g e w c i q :
  scrape_succeeds e w c i q ->
  snd (scrape g e w) = Next tt \/ valid_text (hostname g) ->
  map (fun m => (fqName (desc m), valType m, val m, labelPairs m))
      (firstn 9 (samples g e w))
  = [ ("presto_cluster_running_queries", GaugeValue, RunningQueries c,
       [("hostname", hostname g)]);
      ("presto_cluster_blocked_queries", GaugeValue, BlockedQueries c,
       [("hostname", hostname g)]);
      ("presto_cluster_queued_queries", GaugeValue, QueuedQueries c,
       [("hostname", hostname g)]);
      ("presto_cluster_active_workers", GaugeValue, ActiveWorkers c,
       [("hostname", hostname g)]);
      ("presto_cluster_running_drivers", GaugeValue, RunningDrivers c,
       [("hostname", hostname g)]);
      ("presto_cluster_reserved_memory", GaugeValue, ReservedMemory c,
       [("hostname", hostname g)]);
      ("presto_cluster_total_input_rows", GaugeValue, TotalInputRows c,
       [("hostname", hostname g)]);
      ("presto_cluster_total_input_bytes", GaugeValue, TotalInputBytes c,
       [("hostname", hostname g)]);
      ("presto_cluster_total_cpu_time_secs", GaugeValue, TotalCpuTimeSecs c,
       [("hostname", hostname g)]) ].
Proof.
  intros H Hv.
  assert (valid_text (hostname g)) as Hh.
  { destruct Hv as [Hv | Hv]; [| exact Hv].
    rewrite (scrape_succeeds_run g e w c i q H) in Hv.
    now apply emit_end_Next in Hv. }
  rewrite (samples_of_success g e w c i q H).
  rewrite (sent_gauges_host g c i q Hh). reflexivity.
Qed.

(** C5 (amended): when the query list decodes to no query, the other
    two stages succeed and the host name is valid UTF-8, [Collect] runs
    to its end and the samples are the nine cluster gauges and the
    uptime gauge, none of them a per-query sample.  With a host name
    that is not valid UTF-8 [MustNewConstMetric] panics at the first
    sample and nothing is sent. *)
Theorem empty_query_list g e w c i :
  scrape_succeeds e w c i [] ->
  (valid_text (hostname g) ->
   snd (scrape g e w) = Next tt
   /\ samples g e w = (cluster_gauges g c ++ [uptime_gauge g i])%list
   /\ List.length (samples g e w) = 10%nat
   /\ filter (fun m => String.eqb (fqName (desc m)) (fqName querys))
             (samples g e w) = [])
  /\ (~ valid_text (hostname g) ->
      snd (scrape g e w) = Panicked (errInvalidLabelValue (hostname g))
      /\ samples g e w = []).
Proof.
  intros H. rewrite (samples_of_success g e w c i [] H).
  rewrite (scrape_succeeds_run g e w c i [] H).
  cbn [snd]. unfold sent_gauges, emit_end, valid_text. split; intros Hh.
  - rewrite Hh. repeat split; reflexivity.
  - destruct (utf8.ValidString (hostname g)); [now contradiction Hh |].
    now split.
Qed.

(** C6 (what the code does): a failed request, a failed read of the
    body and a failed decoding are logged at error level with the text
    of their error, but a status other than 200 is logged as the nil
    error, whatever the status was; in the four cases no sample is
    sent. *)
Theorem failure_log_lines g e w n f :
  scrape_fails e w n f ->
  samples g e w = []
  /\ log_lines g e w =
     [(ErrorLevel,
       match f with
       | NetworkError err => err
       | BadStatus _ => "%!s(<nil>)"
       | BodyReadError err => err
       | DecodeError err => err
       end)].
Proof.
  intros H. unfold samples, log_lines.
  destruct (scrape_fails_run g e w n f H) as [w' ->].
  split; [reflexivity |]. now destruct f.
Qed.

(** C8: every sample of a scrape, whichever its descriptor, carries
    under [hostname] the host name that was resolved when the process
    started. *)
Theorem hostname_on_every_sample os_Hostname e w :
  Forall (fun m => label m "hostname" = Some (fst os_Hostname))
         (samples (startup os_Hostname) e w).
Proof.
  destruct (scrape_fails_or_succeeds e w) as [(n & f & H) | (c & i & q & H)].
  - rewrite (samples_of_failure _ e w n f H). constructor.
  - rewrite (samples_of_success _ e w c i q H). apply Forall_sent_gauges.
    unfold all_gauges. apply Forall_app. split; [| apply Forall_app; split].
    + repeat constructor.
    + repeat constructor.
    + apply Forall_forall. intros m Hin.
      apply in_map_iff in Hin. destruct Hin as (v & <- & _). reflexivity.
Qed.

Lemma scrape_fails_transfer e w w' n f :
  snd (cluster_reply e w) = snd (cluster_reply e w') ->
  snd (info_reply e w) = snd (info_reply e w') ->
  snd (query_reply e w) = snd (query_reply e w') ->
  scrape_fails e w n f -> scrape_fails e w' n f.
Proof.
  intros E1 E2 E3 H.
  unfold cluster_yields, info_yields, query_yields,
    cluster_fails, info_fails, query_fails in *.
  destruct H as [f H | c f Hc H | c i f Hc Hi H];
    unfold cluster_yields, info_yields, query_yields,
      cluster_fails, info_fails, query_fails in *;
    rewrite ?E1, ?E2, ?E3 in *.
  - now constructor.
  - eapply fails_at_info; eauto.
  - eapply fails_at_query; eauto.
Qed.

(** C9: two scrapes to which the upstream gives the same three replies
    send the same samples, whatever the state of the upstream they
    start in; and a call of [Collect] leaves what was on the channel
    before it untouched, adding the samples it would send on its own. *)
Theorem Collect_deterministic g e :
  (forall w w',
      snd (cluster_reply e w) = snd (cluster_reply e w') ->
      snd (info_reply e w) = snd (info_reply e w') ->
      snd (query_reply e w) = snd (query_reply e w') ->
      samples g e w = samples g e w')
  /\ (forall s, sent (fst (Collect g e s)) = (sent s ++ samples g e (world s))%list).
Proof.
  split.
  - intros w w' E1 E2 E3.
    destruct (scrape_fails_or_succeeds e w) as [(n & f & H) | (c & i & q & H)].
    + rewrite (samples_of_failure g e w n f H).
      now rewrite (samples_of_failure g e w' n f
                     (scrape_fails_transfer e w w' n f E1 E2 E3 H)).
    + rewrite (samples_of_success g e w c i q H).
      symmetry. apply samples_of_success.
      destruct H as (Hc & Hi & Hq).
      unfold scrape_succeeds, cluster_yields, info_yields, query_yields in *.
      now rewrite <- E1, <- E2, <- E3.
  - intros s.
    destruct (scrape_fails_or_succeeds e (world s))
      as [(n & f & H) | (c & i & q & H)].
    + rewrite (samples_of_failure g e (world s) n f H).
      destruct H as [f H | c f Hc H | c i f Hc Hi H].
      * now rewrite (Collect_fails_cluster g e s f H).
      * now rewrite (Collect_fails_info g e s c f Hc H).
      * now rewrite (Collect_fails_query g e s c i f Hc Hi H).
    + rewrite (samples_of_success g e (world s) c i q H).
      now rewrite (Collect_ok g e s c i q H).
Qed.

End Scrape.

(** C7: [Describe] does not consult the upstream or [Collect]; it sends
    the same eleven descriptors whatever the exporter: nine cluster
    gauges, the uptime and the per-query gauge.  Their names are
    [presto_cluster_] followed by the eleven metric names; the first ten
    have the label [hostname] and the last one fourteen labels. *)
Theorem Describe_descriptors (e : Exporter) :
  map fqName (Describe e)
  = [ "presto_cluster_running_queries"; "presto_cluster_blocked_queries";
      "presto_cluster_queued_queries"; "presto_cluster_active_workers";
      "presto_cluster_running_drivers"; "presto_cluster_reserved_memory";
      "presto_cluster_total_input_rows"; "presto_cluster_total_input_bytes";
      "presto_cluster_total_cpu_time_secs"; "presto_cluster_uptime";
      "presto_cluster_querys" ]
  /\ List.length (Describe e) = 11%nat
  /\ map fqName (Describe e)
     = map (fun name => (namespace ++ "_") ++ name)
         [ "running_queries"; "blocked_queries"; "queued_queries";
           "active_workers"; "running_drivers"; "reserved_memory";
           "total_input_rows"; "total_input_bytes"; "total_cpu_time_secs";
           "uptime"; "querys" ]
  /\ map variableLabels (firstn 10 (Describe e)) = repeat ["hostname"] 10
  /\ List.length (variableLabels (nth 10 (Describe e) uptime)) = 14%nat
  /\ Describe e
     = [ runningQueries; blockedQueries; queuedQueries; activeWorkers;
         runningDrivers; reservedMemory; totalInputRows; totalInputBytes;
         totalCpuTimeSecs; uptime; querys ].
Proof. repeat split. Qed.

(** ** The digits of strconv *)

Lemma fold_digits_from l : forall a,
  fold_left (fun a x => a * 10 + x) l a
  = a * 10 ^ Z.of_nat (List.length l) + digits_value l.
Proof.
  unfold digits_value.
  induction l as [| x l IH]; intros a; cbn [fold_left List.length].
  - cbn. lia.
  - rewrite IH, (IH (0 * 10 + x)).
    rewrite Nat2Z.inj_succ, Z.pow_succ_r by lia. ring.
Qed.

Lemma digits_value_cons x l :
  digits_value (x :: l) = x * 10 ^ Z.of_nat (List.length l) + digits_value l.
Proof.
  unfold digits_value at 1. cbn [fold_left]. now rewrite fold_digits_from.
Qed.

Lemma digits_fuel_value fuel : forall n acc,
  0 <= n < 2 ^ Z.of_nat fuel ->
  digits_value (digits_fuel fuel n acc)
  = n * 10 ^ Z.of_nat (List.length acc) + digits_value acc.
Proof.
  induction fuel as [| fuel IH]; intros n acc Hn.
  - change (2 ^ Z.of_nat 0) with 1 in Hn. cbn [digits_fuel].
    assert (n = 0) as -> by lia. now rewrite Z.mul_0_l.
  - cbn [digits_fuel]. destruct (Z.leb_spec n 0) as [H0 | H0].
    + assert (n = 0) as -> by lia. now rewrite Z.mul_0_l.
    + rewrite IH.
      * rewrite digits_value_cons. cbn [List.length].
        rewrite Nat2Z.inj_succ, Z.pow_succ_r by lia.
        pose proof (Z.div_mod n 10 ltac:(lia)).
        set (P := 10 ^ Z.of_nat (List.length acc)).
        replace (n * P) with ((10 * (n / 10) + n mod 10) * P) by (f_equal; lia).
        ring.
      * rewrite Nat2Z.inj_succ, Z.pow_succ_r in Hn by lia.
        split; [apply Z.div_pos; lia |].
        apply Z.div_lt_upper_bound; lia.
Qed.

(** [digits_of] gives all the digits of its argument. *)
Lemma digits_of_value n : 0 <= n -> digits_value (digits_of n) = n.
Proof.
  intros Hn. unfold digits_of. rewrite digits_fuel_value.
  - cbn. lia.
  - split; [assumption |].
    rewrite Nat2Z.inj_succ, Z2Nat.id by apply Z.log2_nonneg.
    destruct (Z.eq_dec n 0) as [-> | Hne]; [cbn; lia |].
    apply Z.log2_spec. lia.
Qed.

Lemma digits_fuel_range fuel : forall n acc,
  Forall in_0_9 acc -> Forall in_0_9 (digits_fuel fuel n acc).
Proof.
  induction fuel as [| fuel IH]; intros n acc Hacc; cbn; [assumption |].
  destruct (n <=? 0); [assumption |].
  apply IH. constructor; [| assumption].
  unfold in_0_9. pose proof (Z.mod_pos_bound n 10). lia.
Qed.

Lemma digits_of_range n : Forall in_0_9 (digits_of n).
Proof. apply digits_fuel_range. constructor. Qed.

Lemma digits_fuel_length fuel : forall n acc,
  (List.length (digits_fuel fuel n acc) <= fuel + List.length acc)%nat.
Proof.
  induction fuel as [| fuel IH]; intros n acc; cbn; [lia |].
  destruct (n <=? 0); [lia |].
  specialize (IH (n / 10) (n mod 10 :: acc)). cbn in IH. lia.
Qed.

Lemma digits_of_length n b :
  0 <= b -> n < 2 ^ b -> Z.of_nat (List.length (digits_of n)) <= b + 1.
Proof.
  intros Hb Hn. unfold digits_of.
  pose proof (digits_fuel_length (S (Z.to_nat (Z.log2 n))) n []) as H.
  cbn [List.length] in H.
  assert (Z.log2 n <= b) as Hlog.
  { destruct (Z.le_gt_cases n 0) as [Hle | Hgt].
    - rewrite Z.log2_nonpos by assumption. assumption.
    - apply Z.lt_le_incl, Z.log2_lt_pow2; assumption. }
  pose proof (Z.log2_nonneg n). lia.
Qed.

Lemma trim_rev_range l : Forall in_0_9 l -> Forall in_0_9 (strconv.trim_rev l).
Proof.
  induction 1 as [| x l Hx Hl IH]; cbn; [constructor |].
  destruct x; try (constructor; assumption). assumption.
Qed.

Lemma trim_range l : Forall in_0_9 l -> Forall in_0_9 (strconv.trim l).
Proof.
  intros H. unfold strconv.trim.
  apply Forall_rev, trim_rev_range, Forall_rev, H.
Qed.

Lemma string_of_bytes_app a b :
  string_of_bytes (a ++ b) = string_of_bytes a ++ string_of_bytes b.
Proof. induction a as [| c a IH]; cbn; [reflexivity | now rewrite IH]. Qed.

Lemma bytes_of_digits_app a b :
  strconv.bytes_of_digits (a ++ b)
  = strconv.bytes_of_digits a ++ strconv.bytes_of_digits b.
Proof.
  unfold strconv.bytes_of_digits. now rewrite map_app, string_of_bytes_app.
Qed.

Lemma div_mod_digit x b :
  0 <= x < 10 * b -> 0 < b -> 0 <= x / b <= 9 /\ 0 <= x mod b < b.
Proof.
  intros Hx Hb. split; [| apply Z.mod_pos_bound; assumption].
  split; [apply Z.div_pos; lia |].
  assert (x / b < 10); [| lia].
  apply Z.div_lt_upper_bound; lia.
Qed.

Lemma exponent_digits_range x :
  0 <= x < 1000 ->
  let edigits :=
    if x <? 10 then [0; x]
    else if x <? 100 then [x / 10; x mod 10]
    else [x / 100; (x / 10) mod 10; x mod 10] in
  Forall in_0_9 edigits /\ (2 <= List.length edigits)%nat.
Proof.
  intros Hx. cbv zeta. unfold in_0_9.
  destruct (Z.ltb_spec x 10); [| destruct (Z.ltb_spec x 100)].
  - split; [repeat constructor; lia | cbn; lia].
  - pose proof (div_mod_digit x 10). pose proof (Z.mod_pos_bound x 10).
    split; [repeat constructor; lia | cbn; lia].
  - pose proof (div_mod_digit x 100). pose proof (Z.mod_pos_bound x 10).
    pose proof (Z.mod_pos_bound (x / 10) 10).
    split; [repeat constructor; lia | cbn; lia].
Qed.

Lemma Forall_firstn {A} (P : A -> Prop) n l :
  Forall P l -> Forall P (firstn n l).
Proof.
  intros H. rewrite <- (firstn_skipn n l) in H.
  now apply Forall_app in H.
Qed.

Lemma fmtE_sci neg digs prec :
  Forall in_0_9 (strconv.d digs) ->
  Z.abs (if Z.of_nat (List.length (strconv.d digs)) =? 0 then 0
         else strconv.ds_dp digs - 1) < 1000 ->
  sci_notation (strconv.fmtE neg digs prec "E").
Proof.
  intros Hd Hexp. unfold strconv.fmtE.
  set (nd := Z.of_nat (List.length (strconv.d digs))) in *.
  set (exp := if nd =? 0 then 0 else strconv.ds_dp digs - 1) in *.
  set (m := Z.min nd (prec + 1)).
  set (frac := (firstn (Z.to_nat (m - 1)) (tl (strconv.d digs))
                ++ repeat 0 (Z.to_nat (prec - Z.max 1 m + 1)))%list).
  pose proof (exponent_digits_range (Z.abs exp) ltac:(lia)) as [He1 He2].
  cbv zeta in He1, He2.
  exists neg,
    (match strconv.d digs with [] => 0 | d0 :: _ => d0 end),
    (if 0 <? prec then frac else []),
    (exp <? 0),
    (if Z.abs exp <? 10 then [0; Z.abs exp]
     else if Z.abs exp <? 100 then [Z.abs exp / 10; Z.abs exp mod 10]
     else [Z.abs exp / 100; (Z.abs exp / 10) mod 10; Z.abs exp mod 10]).
  assert (Forall in_0_9 frac) as Hfrac.
  { apply Forall_app. split.
    - apply Forall_firstn.
      destruct (strconv.d digs) as [| d0 tl0]; [constructor |].
      now inversion Hd.
    - apply Forall_forall. intros x Hx. apply repeat_spec in Hx.
      subst. unfold in_0_9. lia. }
  split; [| split; [| split; [| split]]].
  - destruct (strconv.d digs) as [| d0 tl0]; [unfold in_0_9; lia |].
    inversion Hd; subst. assumption.
  - destruct (0 <? prec); [exact Hfrac | constructor].
  - exact He1.
  - exact He2.
  - f_equal. f_equal.
    destruct (Z.ltb_spec 0 prec) as [Hp | Hp].
    + assert (frac <> []) as Hne.
      { intros E. apply (f_equal (@List.length Z)) in E.
        unfold frac in E. rewrite length_app, length_firstn, repeat_length in E.
        cbn [List.length] in E.
        assert (List.length (tl (strconv.d digs))
                = (List.length (strconv.d digs) - 1)%nat) as Htl
            by (destruct (strconv.d digs); cbn; lia).
        rewrite Htl in E. unfold m, nd in *. lia. }
      destruct frac as [| f0 frac'] eqn:Efrac; [congruence |].
      rewrite <- Efrac. unfold frac.
      rewrite bytes_of_digits_app. reflexivity.
    + reflexivity.
Qed.

Lemma cut_bounds n e10 nd lo hi e c :
  0 <= n -> 0 <= nd ->
  strconv.cut n e10 nd = Some (lo, hi, e, c) ->
  0 <= lo <= n /\ hi = lo + 1
  /\ e10 <= e <= e10 + Z.of_nat (List.length (digits_of n)).
Proof.
  intros Hn Hnd. unfold strconv.cut.
  set (len := Z.of_nat (List.length (digits_of n))).
  destruct (Z.leb_spec len nd) as [Hle | Hgt]; [discriminate |].
  intros E. injection E as <- <- <- _.
  assert (0 < 10 ^ (len - nd)) as Hp by (apply Z.pow_pos_nonneg; lia).
  repeat split; try lia.
  - apply Z.div_pos; lia.
  - apply Z.div_le_upper_bound; nia.
Qed.

Lemma nearest_cases lo hi c :
  strconv.nearest lo hi c = lo \/ strconv.nearest lo hi c = hi.
Proof. unfold strconv.nearest. destruct c; [destruct (Z.even lo) | |]; auto. Qed.

Lemma roundShortest_from_bounds flt mant k n e10 fuel : forall nd c e,
  0 <= n -> 0 <= nd ->
  strconv.roundShortest_from fuel flt mant k n e10 nd = (c, e) ->
  0 <= c <= n + 1
  /\ e10 <= e <= e10 + Z.of_nat (List.length (digits_of n)).
Proof.
  induction fuel as [| fuel IH]; intros nd c e Hn Hnd;
    cbn [strconv.roundShortest_from].
  - intros E. injection E as <- <-. lia.
  - destruct (strconv.cut n e10 nd) as [[[[lo hi] e'] cmp] |] eqn:Ecut.
    + destruct (cut_bounds _ _ _ _ _ _ _ Hn Hnd Ecut) as (Hlo & Hhi & He).
      destruct (strconv.reads_back flt mant k lo e');
        destruct (strconv.reads_back flt mant k hi e'); cbn [andb].
      * intros E. injection E as <- <-.
        destruct (nearest_cases lo hi cmp) as [-> | ->]; lia.
      * intros E. injection E as <- <-. lia.
      * intros E. injection E as <- <-. lia.
      * intros E. apply IH in E; lia.
    + intros E. injection E as <- <-. lia.
Qed.

Lemma assign_shift_bounds mant k n e10 :
  0 <= mant < 2 ^ 24 -> -149 <= k <= 104 ->
  strconv.assign_shift mant k = (n, e10) ->
  0 <= n < 2 ^ 471 /\ -149 <= e10 <= 0.
Proof.
  intros Hm Hk. unfold strconv.assign_shift.
  destruct (Z.leb_spec 0 k) as [Hk0 | Hk0]; intros E; injection E as <- <-.
  - assert (0 < 2 ^ k <= 2 ^ 104) as Hp.
    { split; [apply Z.pow_pos_nonneg; lia | apply Z.pow_le_mono_r; lia]. }
    split; [| lia].
    assert (mant * 2 ^ k < 2 ^ 24 * 2 ^ 104) by nia.
    split; [nia |].
    eapply Z.lt_le_trans; [eassumption |].
    apply Z.leb_le. vm_compute. reflexivity.
  - assert (0 < 5 ^ (- k) <= 5 ^ 149) as Hp.
    { split; [apply Z.pow_pos_nonneg; lia | apply Z.pow_le_mono_r; lia]. }
    split; [| lia].
    assert (mant * 5 ^ (- k) < 2 ^ 24 * 5 ^ 149) by nia.
    split; [nia |].
    eapply Z.lt_le_trans; [eassumption |].
    apply Z.leb_le. vm_compute. reflexivity.
Qed.

Lemma roundShortest_float32 mant k :
  0 <= mant < 2 ^ 24 -> -149 <= k <= 104 ->
  let digs := strconv.roundShortest strconv.float32info mant k in
  Forall in_0_9 (strconv.d digs)
  /\ Z.abs (if Z.of_nat (List.length (strconv.d digs)) =? 0 then 0
            else strconv.ds_dp digs - 1) < 1000.
Proof.
  intros Hm Hk. cbv zeta. unfold strconv.roundShortest.
  destruct (mant =? 0); [split; [constructor | cbn; lia] |].
  destruct (strconv.assign_shift mant k) as [n e10] eqn:Eas.
  destruct (assign_shift_bounds _ _ _ _ Hm Hk Eas) as (Hn & He10).
  destruct (strconv.roundShortest_from _ _ _ _ _ _ _) as [c e] eqn:Ers.
  apply roundShortest_from_bounds in Ers; [| lia | lia].
  destruct Ers as (Hc & He).
  unfold strconv.slice_of. cbn [strconv.d strconv.ds_dp].
  split; [apply trim_range, digits_of_range |].
  assert (Z.of_nat (List.length (digits_of n)) <= 472)
    by (apply (digits_of_length n 471); lia).
  assert (Z.of_nat (List.length (digits_of c)) <= 473).
  { apply (digits_of_length c 472); [lia |].
    assert (2 ^ 472 = 2 * 2 ^ 471) by (vm_compute; reflexivity). lia. }
  destruct (_ =? 0); lia.
Qed.

(** ** Rounding gives canonical floats *)

Section Canonical.
Variables prec emax : Z.
Hypothesis prec_pos : 0 < prec.

Lemma digits2_pos_size p : digits2_pos p = Pos.size p.
Proof. induction p; cbn; congruence. Qed.

Lemma Zdigits2_log2 m : 0 < m -> Zdigits2 m = Z.log2 m + 1.
Proof.
  destruct m as [| p | p]; try lia. intros _. cbn [Zdigits2].
  rewrite digits2_pos_size.
  destruct p; cbn; lia.
Qed.

Lemma Zdigits2_nonneg m : 0 <= Zdigits2 m.
Proof. destruct m; cbn; lia. Qed.

Lemma Zdigits2_le m n : 0 <= m <= n -> Zdigits2 m <= Zdigits2 n.
Proof.
  intros H. destruct (Z.eq_dec m 0) as [-> | Hm].
  - apply Zdigits2_nonneg.
  - rewrite !Zdigits2_log2 by lia.
    pose proof (Z.log2_le_mono m n). lia.
Qed.

Lemma Zdigits2_div m n :
  0 <= n -> 0 < m / 2 ^ n -> Zdigits2 (m / 2 ^ n) = Zdigits2 m - n.
Proof.
  intros Hn Hq.
  assert (0 < m).
  { destruct (Z.lt_ge_cases 0 m) as [? | Hle]; [assumption |].
    assert (m / 2 ^ n <= 0); [| lia].
    apply Z.div_le_upper_bound; [apply Z.pow_pos_nonneg; lia | lia]. }
  rewrite !Zdigits2_log2 by lia.
  rewrite <- Z.shiftr_div_pow2 in * by lia.
  rewrite Z.log2_shiftr by lia.
  destruct (Z.lt_ge_cases (Z.log2 m) n) as [Hlt | Hge]; [| lia].
  rewrite Z.shiftr_eq_0 in Hq by lia. lia.
Qed.

Lemma shr_1_m mrs :
  0 <= shr_m mrs -> shr_m (shr_1 mrs) = shr_m mrs / 2.
Proof.
  destruct mrs as [m r s]. cbn [shr_m]. intros Hm.
  rewrite <- Z.div2_div.
  destruct m as [| [p | p |] | p]; cbn; try reflexivity; lia.
Qed.

Lemma shr_1_nonneg mrs : 0 <= shr_m mrs -> 0 <= shr_m (shr_1 mrs).
Proof.
  intros H. rewrite shr_1_m by assumption. apply Z.div_pos; lia.
Qed.

Lemma pow2_xO n : 2 ^ Zpos n~0 = 2 ^ Zpos n * 2 ^ Zpos n.
Proof. rewrite Pos2Z.inj_xO, <- Z.pow_add_r by lia. f_equal. lia. Qed.

Lemma pow2_xI n : 2 ^ Zpos n~1 = 2 * (2 ^ Zpos n * 2 ^ Zpos n).
Proof.
  rewrite <- pow2_xO, Pos2Z.inj_xI, Z.pow_add_r by lia.
  rewrite <- Pos2Z.inj_xO. change (2 ^ 1) with 2. lia.
Qed.

Lemma iter_pos_shr_1 n : forall mrs,
  0 <= shr_m mrs ->
  0 <= shr_m (iter_pos shr_1 n mrs)
  /\ shr_m (iter_pos shr_1 n mrs) = shr_m mrs / 2 ^ Zpos n.
Proof.
  induction n as [n IH | n IH |]; intros mrs Hm; cbn [iter_pos].
  - pose proof (shr_1_nonneg mrs Hm) as H1.
    destruct (IH _ H1) as [H2 E2]. destruct (IH _ H2) as [H3 E3].
    split; [assumption |].
    assert (0 < 2 ^ Zpos n) by (apply Z.pow_pos_nonneg; lia).
    rewrite E3, E2, shr_1_m, pow2_xI by assumption.
    rewrite !Z.div_div by lia. reflexivity.
  - destruct (IH _ Hm) as [H2 E2]. destruct (IH _ H2) as [H3 E3].
    split; [assumption |].
    assert (0 < 2 ^ Zpos n) by (apply Z.pow_pos_nonneg; lia).
    rewrite E3, E2, pow2_xO. rewrite !Z.div_div by lia. reflexivity.
  - split; [now apply shr_1_nonneg | now rewrite shr_1_m].
Qed.

Lemma div_pow2_pos m n :
  0 < m -> 0 <= n < Zdigits2 m -> 0 < m / 2 ^ n.
Proof.
  intros Hm Hn. rewrite Zdigits2_log2 in Hn by assumption.
  apply Z.div_str_pos. split; [apply Z.pow_pos_nonneg; lia |].
  apply Z.le_trans with (2 ^ Z.log2 m).
  - apply Z.pow_le_mono_r; lia.
  - apply Z.log2_spec. assumption.
Qed.

Lemma shr_record_of_loc_m m l : shr_m (shr_record_of_loc m l) = m.
Proof. destruct l as [| []]; reflexivity. Qed.

Lemma shr_fexp_spec m e l :
  0 <= m ->
  0 <= shr_m (fst (shr_fexp prec emax m e l))
  /\ ((fexp prec emax (Zdigits2 m + e) - e <= 0
       /\ shr_m (fst (shr_fexp prec emax m e l)) = m
       /\ snd (shr_fexp prec emax m e l) = e)
      \/ (0 < fexp prec emax (Zdigits2 m + e) - e
          /\ shr_m (fst (shr_fexp prec emax m e l))
             = m / 2 ^ (fexp prec emax (Zdigits2 m + e) - e)
          /\ snd (shr_fexp prec emax m e l) = fexp prec emax (Zdigits2 m + e))).
Proof.
  intros Hm. unfold shr_fexp, shr.
  remember (fexp prec emax (Zdigits2 m + e) - e) as n eqn:En.
  destruct n as [| p | p]; cbn [fst snd].
  - rewrite shr_record_of_loc_m. split; [assumption |]. left. lia.
  - destruct (iter_pos_shr_1 p (shr_record_of_loc m l)) as [H1 H2];
      [now rewrite shr_record_of_loc_m |].
    rewrite shr_record_of_loc_m in H2.
    split; [assumption |]. right. split; [lia | split; [assumption | lia]].
  - rewrite shr_record_of_loc_m. split; [assumption |]. left. lia.
Qed.

Lemma round_nearest_even_bounds m l :
  m <= round_nearest_even m l <= m + 1.
Proof.
  unfold round_nearest_even.
  destruct l as [| []]; try lia. destruct (Z.even m); lia.
Qed.

(** A rounded float is zero, an infinity, or a finite float in canonical
    form. *)
Lemma binary_round_aux_valid sx mx ex lx :
  0 <= mx -> ex <= fexp prec emax (Zdigits2 mx + ex) ->
  valid_binary prec emax (binary_round_aux prec emax sx mx ex lx) = true
  /\ binary_round_aux prec emax sx mx ex lx <> S754_nan.
Proof.
  intros Hmx Hex. unfold binary_round_aux.
  destruct (shr_fexp_spec mx ex lx Hmx) as [Hm1 H1].
  destruct (shr_fexp prec emax mx ex lx) as [mrs1 e1]. cbn [fst snd] in *.
  set (m1 := shr_m mrs1) in *.
  pose proof (round_nearest_even_bounds m1 (loc_of_shr_record mrs1)) as Hr.
  set (m2 := round_nearest_even m1 (loc_of_shr_record mrs1)) in *.
  assert (0 <= m2) as Hm2 by lia.
  destruct (shr_fexp_spec m2 e1 loc_Exact Hm2) as [Hm3 H2].
  destruct (shr_fexp prec emax m2 e1 loc_Exact) as [mrs3 e3].
  cbn [fst snd] in *.
  destruct (shr_m mrs3) as [| m3 | m3] eqn:Em3; [now split | | lia].
  destruct (Z.leb_spec e3 (emax - prec)) as [Hle | Hgt]; [| now split].
  split; [| discriminate].
  cbn [valid_binary]. unfold bounded, canonical_mantissa.
  apply andb_true_intro. split; [| now apply Z.leb_le].
  apply Z.eqb_eq.
  change (Zpos (digits2_pos m3)) with (Zdigits2 (Zpos m3)).
  pose proof (Zdigits2_le m1 m2 ltac:(lia)) as Hd12.
  destruct H2 as [(Hn2 & E3 & ->) | (Hn2 & E3 & ->)].
  - (* no second shift *)
    rewrite E3.
    destruct H1 as [(Hn1 & E1 & ->) | (Hn1 & E1 & ->)].
    + rewrite E1 in *. unfold fexp, emin in *. lia.
    + destruct (Z.eq_dec (fexp prec emax (Zdigits2 mx + ex)) (emin prec emax))
        as [Emin | Nmin].
      * unfold fexp, emin in *. lia.
      * assert (fexp prec emax (Zdigits2 mx + ex) = Zdigits2 mx + ex - prec)
          as Ef by (unfold fexp, emin in *; lia).
        assert (0 < mx).
        { destruct (Z.eq_dec mx 0) as [-> | ?]; [| lia].
          cbn in Ef, Hn1. unfold fexp, emin in *. lia. }
        assert (Zdigits2 m1 = prec).
        { rewrite E1. rewrite Zdigits2_div.
          - lia.
          - lia.
          - apply div_pow2_pos; lia. }
        unfold fexp, emin in *. lia.
  - (* a second shift *)
    rewrite E3, Zdigits2_div by lia.
    replace (Zdigits2 m2 - (fexp prec emax (Zdigits2 m2 + e1) - e1)
             + fexp prec emax (Zdigits2 m2 + e1))
      with (Zdigits2 m2 + e1) by lia.
    reflexivity.
Qed.

Lemma digits2_pos_iter_xO m d :
  digits2_pos (Pos.iter xO m d) = (digits2_pos m + d)%positive.
Proof.
  induction d as [| d IH] using Pos.peano_ind.
  - cbn. lia.
  - rewrite Pos.iter_succ. cbn [digits2_pos]. rewrite IH. lia.
Qed.

Lemma binary_round_valid sx mx ex :
  valid_binary prec emax (binary_round prec emax sx mx ex) = true
  /\ binary_round prec emax sx mx ex <> S754_nan.
Proof.
  unfold binary_round, shl_align.
  set (e' := fexp prec emax (Zpos (digits2_pos mx) + ex)).
  destruct (e' - ex) as [| d | d] eqn:Ed;
    apply binary_round_aux_valid; try lia; cbn [Zdigits2]; fold e'; try lia.
  rewrite digits2_pos_iter_xO.
  replace (Zpos (digits2_pos mx + d) + e') with (Zpos (digits2_pos mx) + ex)
    by lia.
  fold e'. lia.
Qed.

End Canonical.

(** ** The text of a float32 *)

Lemma format_bits_float32_sci bits :
  exp_field32 bits <> 255 ->
  sci_notation (strconv.format_bits strconv.float32info bits strconv.verb_E (-1)).
Proof.
  unfold exp_field32, strconv.format_bits.
  cbn [strconv.expbits strconv.mantbits strconv.bias strconv.float32info
       strconv.verb_byte].
  change (Z.shiftl 1 8 - 1) with (Z.ones 8).
  change (Z.shiftl 1 23 - 1) with (Z.ones 23).
  change (Z.shiftl 1 23) with (2 ^ 23).
  rewrite !Z.land_ones by lia.
  set (exp0 := Z.shiftr bits 23 mod 2 ^ 8).
  set (mant0 := bits mod 2 ^ 23).
  assert (0 <= exp0 < 2 ^ 8) as Hexp by (apply Z.mod_pos_bound; lia).
  assert (0 <= mant0 < 2 ^ 23) as Hmant by (apply Z.mod_pos_bound; lia).
  change (Z.ones 8) with 255. intros N255.
  destruct (Z.eqb_spec exp0 255) as [E255 | _]; [contradiction |].
  change (-1 <? 0) with true. cbv iota.
  destruct (Z.eqb_spec exp0 0) as [E0 | N0].
  - destruct (roundShortest_float32 mant0 (exp0 + 1 + -127 - 23)) as [Hd He];
      [lia | lia |].
    now apply fmtE_sci.
  - assert (0 <= Z.lor mant0 (2 ^ 23) < 2 ^ 24) as Hlor.
    { pose proof (Z.add_lor_land mant0 (2 ^ 23)).
      assert (0 <= Z.land mant0 (2 ^ 23)) by (apply Z.land_nonneg; lia).
      assert (0 <= Z.lor mant0 (2 ^ 23)) by (apply Z.lor_nonneg; lia).
      lia. }
    destruct (roundShortest_float32 (Z.lor mant0 (2 ^ 23)) (exp0 + -127 - 23))
      as [Hd He]; [lia | lia |].
    now apply fmtE_sci.
Qed.

(** The exponent field of a finite float32 in canonical form is not the
    one of the infinities and of NaN. *)
Lemma float_bits_finite s m e :
  bounded 24 128 m e = true ->
  exp_field32 (strconv.float_bits strconv.float32info (S754_finite s m e)) <> 255.
Proof.
  unfold bounded, canonical_mantissa. intros H.
  apply andb_prop in H. destruct H as [Hc He].
  apply Z.eqb_eq in Hc. apply Z.leb_le in He.
  change (Zpos (digits2_pos m)) with (Zdigits2 (Zpos m)) in Hc.
  rewrite Zdigits2_log2 in Hc by lia.
  pose proof (Z.log2_spec (Zpos m) ltac:(lia)) as [Hlo Hhi].
  assert (Z.log2 (Zpos m) + 1 <= 24 /\ -149 <= e) as [Hd Hemin]
    by (unfold fexp, emin in Hc; lia).
  assert (Zpos m < 2 ^ 24) as Hm.
  { eapply Z.lt_le_trans; [exact Hhi |].
    apply Z.pow_le_mono_r; lia. }
  unfold exp_field32, strconv.float_bits.
  cbn [strconv.expbits strconv.mantbits strconv.bias strconv.float32info].
  rewrite Z.shiftr_div_pow2, !Z.shiftl_mul_pow2 by lia.
  change (2 ^ 23) with 8388608 in *. change (2 ^ 24) with 16777216 in *.
  change (2 ^ 8) with 256. change (2 ^ (23 + 8)) with 2147483648.
  change (128 - 24) with 104 in He.
  rewrite !Z.mul_1_l.
  destruct (Z.leb_spec 8388608 (Zpos m)); destruct s;
    Z.div_mod_to_equations; lia.
Qed.

(** The four forms of the text of a float64 written as a float32 with
    the verb [E] and the shortest digits. *)
Lemma FormatFloat_E32_cases (v : float64) :
  let text := strconv.FormatFloat v strconv.verb_E (-1) 32 in
  match strconv.float32_of_float64 v with
  | S754_nan => text = "NaN"
  | S754_infinity s => text = if s then "-Inf" else "+Inf"
  | S754_zero s => text = (if s then "-0E+00" else "0E+00") /\ sci_notation text
  | S754_finite _ _ _ => sci_notation text
  end.
Proof.
  cbv zeta. unfold strconv.FormatFloat. change (32 =? 32) with true. cbv iota.
  destruct (strconv.float32_of_float64 v) as [s | s | | s m e] eqn:E.
  - split; [now destruct s |].
    apply format_bits_float32_sci. now destruct s.
  - now destruct s.
  - reflexivity.
  - apply format_bits_float32_sci, float_bits_finite.
    destruct v as [s0 | s0 | | s0 m0 e0]; try discriminate.
    cbn [strconv.float32_of_float64] in E.
    pose proof (binary_round_valid 24 128 ltac:(lia) s0 m0 e0) as [Hv _].
    rewrite E in Hv. exact Hv.
Qed.

Lemma FormatFloat_shape (v : float64) :
  let s := strconv.FormatFloat v strconv.verb_E (-1) 32 in
  s = "NaN" \/ s = "+Inf" \/ s = "-Inf" \/ sci_notation s.
Proof.
  pose proof (FormatFloat_E32_cases v) as H. cbv zeta in *.
  destruct (strconv.float32_of_float64 v) as [s | s | | s m e].
  - tauto.
  - destruct s; auto.
  - auto.
  - auto.
Qed.



(** ** Trimming and parsing the uptime *)

Lemma length_append s t :
  String.length (s ++ t) = (String.length s + String.length t)%nat.
Proof. induction s as [| c s IH]; cbn; [reflexivity | now rewrite IH]. Qed.

Lemma substring_prefix s t : substring 0 (String.length s) (s ++ t) = s.
Proof.
  induction s as [| c s IH]; cbn.
  - now destruct t.
  - now rewrite IH.
Qed.

Lemma substring_suffix s t :
  substring (String.length s) (String.length t) (s ++ t) = t.
Proof.
  induction s as [| c s IH]; cbn; [| exact IH].
  induction t as [| c t IHt]; cbn; [reflexivity | now rewrite IHt].
Qed.

(** [TrimSuffix] removes one trailing [suffix]. *)
Lemma TrimSuffix_append s suffix :
  strings.TrimSuffix (s ++ suffix) suffix = s.
Proof.
  unfold strings.TrimSuffix, strings.HasSuffix.
  rewrite length_append.
  replace (String.length s + String.length suffix - String.length suffix)%nat
    with (String.length s) by lia.
  rewrite substring_suffix, String.eqb_refl, substring_prefix.
  destruct (Nat.leb_spec (String.length suffix)
              (String.length s + String.length suffix)); [reflexivity | lia].
Qed.

Lemma floatBits_overflow prec emax dec f :
  strconv.floatBits prec emax dec = (f, true) -> exists sg, f = S754_infinity sg.
Proof.
  unfold strconv.floatBits.
  destruct (strconv.nd dec =? 0); [discriminate |].
  destruct (310 <? strconv.dp dec).
  { intros E. injection E as <-. eauto. }
  destruct (strconv.dp dec <? -330); [discriminate |].
  cbv zeta.
  match goal with
  | |- match ?x with _ => _ end = _ -> _ => destruct x as [sg | sg | | sg m e]
  end; try discriminate.
  intros E. injection E as <-. eauto.
Qed.

(** The two errors of [ParseFloat] at 32 bits and the value returned
    with each. *)
Lemma ParseFloat32_error s err :
  snd (strconv.ParseFloat s 32) = Some err ->
  (err = strconv.ErrSyntax /\ fst (strconv.ParseFloat s 32) = S754_zero false)
  \/ (err = strconv.ErrRange
      /\ exists sg, fst (strconv.ParseFloat s 32) = S754_infinity sg).
Proof.
  unfold strconv.ParseFloat. change (32 =? 32) with true. cbv iota.
  unfold strconv.atof32, strconv.atof.
  destruct (strconv.special s); [discriminate |].
  destruct (strconv.decimal_set s) as [dec |].
  - destruct (strconv.floatBits 24 128 dec) as [f ovf] eqn:E.
    destruct ovf; [| discriminate].
    cbn. intros E'. injection E' as <-. right.
    destruct (floatBits_overflow _ _ _ _ E) as [sg ->]. cbn. eauto.
  - cbn. intros E'. injection E' as <-. left. auto.
Qed.

(** ** Label values that are valid UTF-8 *)

Lemma list_ascii_of_append s t :
  list_ascii_of_string (s ++ t)
  = (list_ascii_of_string s ++ list_ascii_of_string t)%list.
Proof. induction s as [| c s IH]; cbn; [reflexivity | now rewrite IH]. Qed.

Lemma list_ascii_of_bytes l : list_ascii_of_string (string_of_bytes l) = l.
Proof. induction l as [| c l IH]; cbn; [reflexivity | now rewrite IH]. Qed.

(** A text of bytes below [RuneSelf] is valid. *)
Lemma ascii_ValidString s :
  Forall (fun c => byte_val c < 128) (list_ascii_of_string s) ->
  utf8.ValidString s = true.
Proof.
  induction s as [| c s IH]; [reflexivity |].
  cbn [list_ascii_of_string utf8.ValidString]. intros H.
  inversion H as [| c' l Hc Hs]; subst. unfold utf8.RuneSelf.
  destruct (Z.ltb_spec (byte_val c) 128); [now apply IH | lia].
Qed.

Lemma digit_byte_ascii x : in_0_9 x -> byte_val (digit_byte x) < 128.
Proof.
  unfold in_0_9. intros H.
  assert (x = 0 \/ x = 1 \/ x = 2 \/ x = 3 \/ x = 4 \/ x = 5 \/ x = 6
          \/ x = 7 \/ x = 8 \/ x = 9) as Hx by lia.
  repeat (destruct Hx as [-> | Hx]; [reflexivity |]). now subst.
Qed.

Lemma bytes_of_digits_ascii l :
  Forall in_0_9 l ->
  Forall (fun c => byte_val c < 128)
         (list_ascii_of_string (strconv.bytes_of_digits l)).
Proof.
  intros H. unfold strconv.bytes_of_digits. rewrite list_ascii_of_bytes.
  induction H as [| x l Hx _ IH]; constructor; [| exact IH].
  now apply digit_byte_ascii.
Qed.

Lemma sci_notation_ascii s :
  sci_notation s -> Forall (fun c => byte_val c < 128) (list_ascii_of_string s).
Proof.
  intros (neg & d0 & frac & eneg & edigs & H0 & Hf & He & _ & ->).
  rewrite list_ascii_of_append. apply Forall_app. split.
  { destruct neg; repeat constructor. }
  cbn [list_ascii_of_string]. constructor; [now apply digit_byte_ascii |].
  rewrite list_ascii_of_append. apply Forall_app. split.
  { destruct frac as [| x frac]; [constructor |].
    rewrite list_ascii_of_append. apply Forall_app. split.
    - repeat constructor.
    - now apply bytes_of_digits_ascii. }
  cbn [list_ascii_of_string]. constructor; [reflexivity |].
  rewrite list_ascii_of_append. apply Forall_app. split.
  - destruct eneg; repeat constructor.
  - now apply bytes_of_digits_ascii.
Qed.

(** The three label values that [Collect] computes are valid whatever
    the query. *)
Lemma FormatBool_valid b : valid_text (strconv.FormatBool b).
Proof. now destruct b. Qed.

Lemma Itoa_valid n : valid_text (strconv.Itoa n).
Proof.
  apply ascii_ValidString. destruct n as [| p | p]; cbn [strconv.Itoa].
  - repeat constructor.
  - apply (bytes_of_digits_ascii (digits_of (Z.pos p))), digits_of_range.
  - cbn [list_ascii_of_string]. constructor; [reflexivity |].
    apply (bytes_of_digits_ascii (digits_of (- Z.neg p))), digits_of_range.
Qed.

Lemma FormatFloat_valid (v : float64) :
  valid_text (strconv.FormatFloat v strconv.verb_E (-1) 32).
Proof.
  destruct (FormatFloat_shape v) as [-> | [-> | [-> | H]]];
    try reflexivity.
  now apply ascii_ValidString, sci_notation_ascii.
Qed.

(** [validateLabelValues] accepts exactly the lists of the number of
    values expected whose values are all valid. *)
Lemma find_invalid_none vals :
  Forall valid_text vals ->
  find (fun val => negb (utf8.ValidString val)) vals = None.
Proof.
  induction 1 as [| val vals Hv _ IH]; [reflexivity |].
  cbn [find]. unfold valid_text in Hv. now rewrite Hv.
Qed.

Lemma find_invalid_first vals :
  ~ Forall valid_text vals ->
  exists before val after,
    vals = (before ++ val :: after)%list
    /\ Forall valid_text before /\ utf8.ValidString val = false
    /\ find (fun val => negb (utf8.ValidString val)) vals = Some val.
Proof.
  induction vals as [| v vals IH]; intros H.
  - contradiction H. constructor.
  - cbn [find]. destruct (utf8.ValidString v) eqn:Hv.
    + destruct IH as (before & val & after & -> & Hb & Hval & Hf).
      { intros Hall. apply H. now constructor. }
      exists (v :: before), val, after. cbn [negb]. repeat split; auto.
    + exists [], v, vals. cbn [negb]. repeat split; auto.
Qed.

Lemma validateLabelValues_valid vals n :
  List.length vals = n -> Forall valid_text vals ->
  validateLabelValues vals n = None.
Proof.
  intros <- H. unfold validateLabelValues.
  now rewrite Nat.eqb_refl, (find_invalid_none vals H).
Qed.

Lemma query_labels_valid g v :
  valid_text (hostname g) -> valid_query v ->
  Forall valid_text (query_labels g v).
Proof.
  unfold valid_query, text_fields, query_labels. intros Hh Hq.
  repeat match goal with
         | H : Forall _ (_ :: _) |- _ => inversion_clear H
         end.
  repeat constructor; auto using FormatBool_valid, Itoa_valid, FormatFloat_valid.
Qed.

Lemma queries_error_valid g q :
  valid_text (hostname g) -> Forall valid_query q -> queries_error g q = None.
Proof.
  intros Hh. induction 1 as [| v q Hv _ IH]; [reflexivity |].
  cbn [queries_error].
  rewrite (validateLabelValues_valid (query_labels g v)
             (List.length (variableLabels querys)) eq_refl
             (query_labels_valid g v Hh Hv)).
  exact IH.
Qed.

Lemma emit_end_valid g q :
  valid_text (hostname g) -> Forall valid_query q -> emit_end g q = Next tt.
Proof.
  intros Hh Hq. unfold emit_end. unfold valid_text in Hh. rewrite Hh.
  now rewrite (queries_error_valid g q Hh Hq).
Qed.

(** A scrape whose three stages succeed and whose label values are all
    valid: the full set is sent and [Collect] runs to its end. *)
Lemma scrape_valid_run {up : Upstream} g e w c i q :
  scrape_succeeds e w c i q ->
  valid_text (hostname g) -> Forall valid_query q ->
  scrape g e w =
  ({| world := fst (query_reply e w); requests := urls e;
      logged := []; sent := all_gauges g c i q |}, Next tt).
Proof.
  intros H Hh Hq. rewrite (scrape_succeeds_run g e w c i q H).
  pose proof (emit_end_valid g q Hh Hq) as Hend.
  now rewrite (sent_gauges_Next g c i q Hend), Hend.
Qed.

Lemma samples_of_valid {up : Upstream} g e w c i q :
  scrape_succeeds e w c i q ->
  valid_text (hostname g) -> Forall valid_query q ->
  samples g e w = all_gauges g c i q.
Proof.
  intros H Hh Hq. unfold samples.
  now rewrite (scrape_valid_run g e w c i q H Hh Hq).
Qed.

(** With a valid host name the tenth sample is there, whatever the
    queries. *)
Lemma nth_error_samples_uptime {up : Upstream} g e w c i q :
  scrape_succeeds e w c i q -> valid_text (hostname g) ->
  nth_error (samples g e w) 9 = Some (uptime_gauge g i).
Proof.
  intros H Hh. rewrite (samples_of_success g e w c i q H).
  now rewrite (sent_gauges_host g c i q Hh).
Qed.

(** ** The uptime gauge and the per-query samples *)


(** C4 (amended): when the three stages succeed and the host name is
    valid UTF-8, the tenth sample is the uptime gauge; its value is the
    uptime text, without one trailing [d], read by [ParseFloat] at 32
    bits: 10 for [10d], 0.5 for [0.5d], and for [5.2d] the
    single-precision neighbour of 5.2, which is
    10905190 * 2^-21 = 5.19999980926513671875. *)
Theorem uptime_gauge_value {up : Upstream} g e w c i q :
  scrape_succeeds e w c i q ->
  valid_text (hostname g) ->
  exists m,
    nth_error (samples g e w) 9 = Some m
    /\ desc m = uptime
    /\ val m = fst (strconv.ParseFloat (strings.TrimSuffix (Uptime i) "d") 32)
    /\ (forall t, Uptime i = t ++ "d" ->
          val m = fst (strconv.ParseFloat t 32))
    /\ (Uptime i = "10d" -> val m = dyadic 10 0)
    /\ (Uptime i = "0.5d" -> val m = dyadic 1 (-1))
    /\ (Uptime i = "5.2d" -> val m = dyadic 10905190 (-21)).
Proof.
  intros H Hh. exists (uptime_gauge g i).
  split; [now apply (nth_error_samples_uptime g e w c i q) |].
  split; [reflexivity |]. split; [reflexivity |].
  cbn [val uptime_gauge host_gauge]. unfold uptime_value.
  repeat split.
  - intros t ->. now rewrite TrimSuffix_append.
  - intros ->. now vm_compute.
  - intros ->. now vm_compute.
  - intros ->. now vm_compute.
Qed.

(** C10 (amended): when the uptime text without its trailing [d] is
    malformed, as for [3h], [2d1h] and the empty text, the error of
    [ParseFloat] is dropped: nothing is logged and, the label values
    being valid UTF-8, the scrape runs to its end and sends the full
    set, the uptime gauge having the value 0.  When the text is
    well-formed but out of the range of a float32 the error is dropped
    in the same way and the value is an infinity. *)
Theorem uptime_parse_error_discarded {up : Upstream} g e w c i q err :
  scrape_succeeds e w c i q ->
  valid_text (hostname g) -> Forall valid_query q ->
  snd (strconv.ParseFloat (strings.TrimSuffix (Uptime i) "d") 32) = Some err ->
  Forall (fun s =>
            strconv.ParseFloat (strings.TrimSuffix s "d") 32
            = (S754_zero false, Some strconv.ErrSyntax))
         ["3h"; "2d1h"; EmptyString]
  /\ snd (scrape g e w) = Next tt
  /\ log_lines g e w = []
  /\ exists v,
       samples g e w
       = (cluster_gauges g c ++ [host_gauge g uptime v]
          ++ map (query_gauge g) q)%list
       /\ (err = strconv.ErrSyntax -> v = S754_zero false)
       /\ (err = strconv.ErrRange ->
           v = S754_infinity false \/ v = S754_infinity true).
Proof.
  intros H Hh Hq Herr.
  split; [repeat constructor |].
  unfold samples, log_lines. rewrite (scrape_valid_run g e w c i q H Hh Hq).
  split; [reflexivity |]. split; [reflexivity |].
  exists (uptime_value (Uptime i)). split; [reflexivity |].
  unfold uptime_value.
  destruct (ParseFloat32_error _ _ Herr) as [[-> ->] | [-> [sg ->]]].
  - split; [reflexivity | discriminate].
  - split; [discriminate |]. intros _. destruct sg; auto.
Qed.


(** ** Runs against the scripted coordinator *)

Ltac scripted_yields :=
  eexists; split; [reflexivity | split; [reflexivity | split; reflexivity]].

Ltac scripted_succeeds :=
  split; [scripted_yields | split; scripted_yields].

(** The texts of the scripted queries are valid UTF-8. *)
Ltac scripted_valid :=
  repeat (constructor; [repeat (constructor; [reflexivity |]); constructor |]);
  constructor.

(** A run of C1: the info endpoint answers 500; nothing is sent and the
    query endpoint is not requested. *)
Lemma Collect_all_or_nothing_witness :
  let up := Scripted.upstream
              (Scripted.with_info (Scripted.status 500)
                 (Scripted.healthy "5d" [])) in
  @scrape_fails up Scripted.exporter 0%nat 2 (BadStatus 500)
  /\ @samples up Scripted.globals Scripted.exporter 0%nat = []
  /\ @requested up Scripted.globals Scripted.exporter 0%nat
     = [ "http://localhost:8080/v1/cluster"; "http://localhost:8080/v1/info" ].
Proof.
  intros up.
  assert (@scrape_fails up Scripted.exporter 0%nat 2 (BadStatus 500)) as H.
  { apply (@fails_at_info up _ _ Scripted.cluster_snapshot).
    - scripted_yields.
    - unfold info_fails. cbn.
      apply (bad_status _ {| StatusCode := 500;
                             Body := {| data := EmptyString;
                                        read_error := None |} |}).
      cbn. lia. }
  split; [exact H |].
  exact (proj1 (@Collect_all_or_nothing up Scripted.globals Scripted.exporter
                  0%nat) 2%nat (BadStatus 500) H).
Defined.

(** A run of C2: the nine cluster gauges of a healthy coordinator, in
    a scrape that runs to its end. *)
Lemma cluster_fields_identity_witness :
  let up := Scripted.upstream (Scripted.healthy "5d" []) in
  @scrape_succeeds up Scripted.exporter 0%nat
     Scripted.cluster_snapshot (Scripted.info_snapshot "5d") []
  /\ snd (@scrape up Scripted.globals Scripted.exporter 0%nat) = Next tt
  /\ map (fun m => (fqName (desc m), val m))
         (firstn 9 (@samples up Scripted.globals Scripted.exporter 0%nat))
     = [ ("presto_cluster_running_queries", dyadic 3 0);
         ("presto_cluster_blocked_queries", dyadic 1 0);
         ("presto_cluster_queued_queries", dyadic 2 0);
         ("presto_cluster_active_workers", dyadic 8 0);
         ("presto_cluster_running_drivers", dyadic 40 0);
         ("presto_cluster_reserved_memory", dyadic 1024 0);
         ("presto_cluster_total_input_rows", dyadic 5000 0);
         ("presto_cluster_total_input_bytes", dyadic 65536 0);
         ("presto_cluster_total_cpu_time_secs", dyadic 25 (-1)) ].
Proof.
  intros up.
  assert (@scrape_succeeds up Scripted.exporter 0%nat
            Scripted.cluster_snapshot (Scripted.info_snapshot "5d") []) as H
    by scripted_succeeds.
  split; [exact H |]. split; [reflexivity |].
  pose proof (@cluster_fields_identity up Scripted.globals Scripted.exporter
                0%nat _ _ _ H (or_introl eq_refl)) as E.
  apply (f_equal (map (fun t => (fst (fst (fst t)), snd (fst t))))) in E.
  rewrite map_map in E. exact E.
Defined.

(** A run of C5: a healthy coordinator with no query, scraped under a
    valid host name. *)
Lemma empty_query_list_witness :
  let up := Scripted.upstream (Scripted.healthy "5d" []) in
  (@scrape_succeeds up Scripted.exporter 0%nat
      Scripted.cluster_snapshot (Scripted.info_snapshot "5d") []
   /\ valid_text (hostname Scripted.globals))
  /\ snd (@scrape up Scripted.globals Scripted.exporter 0%nat) = Next tt
  /\ List.length (@samples up Scripted.globals Scripted.exporter 0%nat) = 10%nat
  /\ filter (fun m => String.eqb (fqName (desc m)) (fqName querys))
            (@samples up Scripted.globals Scripted.exporter 0%nat) = [].
Proof.
  intros up.
  assert (@scrape_succeeds up Scripted.exporter 0%nat
            Scripted.cluster_snapshot (Scripted.info_snapshot "5d") []) as H
    by scripted_succeeds.
  split; [split; [exact H | reflexivity] |].
  destruct (proj1 (@empty_query_list up Scripted.globals Scripted.exporter
                     0%nat _ _ H) eq_refl) as (Hend & _ & Hlen & Hnone).
  split; [exact Hend |]. split; [exact Hlen | exact Hnone].
Defined.

(** C5, as stated, fails: under the host name [bad] + byte 255 +
    [host], which is not valid UTF-8, the three stages succeed with no
    query, and [Collect] panics at the first sample: neither the cluster
    gauges nor the uptime gauge are sent. *)
Lemma empty_query_list_invalid_hostname :
  let h := "bad" ++ String (ascii_of_nat 255) "host" in
  let up := Scripted.upstream (Scripted.healthy "5d" []) in
  @scrape_succeeds up Scripted.exporter 0%nat
     Scripted.cluster_snapshot (Scripted.info_snapshot "5d") []
  /\ @samples up (startup (h, None)) Scripted.exporter 0%nat = []
  /\ snd (@scrape up (startup (h, None)) Scripted.exporter 0%nat)
     = Panicked (errInvalidLabelValue h).
Proof.
  intros h up. split; [scripted_succeeds |]. split; reflexivity.
Qed.

(** A run of C6: the cluster endpoint answers 500 and the line logged
    is the nil error. *)
Lemma failure_log_lines_witness :
  let up := Scripted.upstream
              (Scripted.with_cluster (Scripted.status 500)
                 (Scripted.healthy "5d" [])) in
  @scrape_fails up Scripted.exporter 0%nat 1 (BadStatus 500)
  /\ @samples up Scripted.globals Scripted.exporter 0%nat = []
  /\ @log_lines up Scripted.globals Scripted.exporter 0%nat
     = [(ErrorLevel, "%!s(<nil>)")].
Proof.
  intros up.
  assert (@scrape_fails up Scripted.exporter 0%nat 1 (BadStatus 500)) as H.
  { apply (@fails_at_cluster up). unfold cluster_fails. cbn.
    apply (bad_status _ {| StatusCode := 500;
                           Body := {| data := EmptyString;
                                      read_error := None |} |}).
    cbn. lia. }
  split; [exact H |].
  exact (@failure_log_lines up Scripted.globals Scripted.exporter 0%nat
           1%nat (BadStatus 500) H).
Defined.

(** A run of C9: the scripted coordinator gives the same replies after
    no request and after seven, and the two scrapes send the same
    samples. *)
Lemma Collect_deterministic_witness :
  let up := Scripted.upstream
              (Scripted.healthy "5d" [Scripted.query_record (dyadic 12345 (-1))]) in
  (snd (@cluster_reply up Scripted.exporter 0%nat)
   = snd (@cluster_reply up Scripted.exporter 7%nat)
   /\ snd (@info_reply up Scripted.exporter 0%nat)
      = snd (@info_reply up Scripted.exporter 7%nat)
   /\ snd (@query_reply up Scripted.exporter 0%nat)
      = snd (@query_reply up Scripted.exporter 7%nat))
  /\ @samples up Scripted.globals Scripted.exporter 0%nat
     = @samples up Scripted.globals Scripted.exporter 7%nat.
Proof.
  intros up.
  split; [repeat split |].
  exact (proj1 (@Collect_deterministic up Scripted.globals Scripted.exporter)
           0%nat 7%nat eq_refl eq_refl eq_refl).
Defined.

(** A run of C4: the uptime text [5.2d]. *)
Lemma uptime_gauge_value_witness :
  let up := Scripted.upstream (Scripted.healthy "5.2d" []) in
  (@scrape_succeeds up Scripted.exporter 0%nat
      Scripted.cluster_snapshot (Scripted.info_snapshot "5.2d") []
   /\ valid_text (hostname Scripted.globals))
  /\ exists m,
       nth_error (@samples up Scripted.globals Scripted.exporter 0%nat) 9 = Some m
       /\ desc m = uptime
       /\ val m = dyadic 10905190 (-21).
Proof.
  intros up.
  assert (@scrape_succeeds up Scripted.exporter 0%nat
            Scripted.cluster_snapshot (Scripted.info_snapshot "5.2d") []) as H
    by scripted_succeeds.
  split; [split; [exact H | reflexivity] |].
  destruct (@uptime_gauge_value up Scripted.globals Scripted.exporter 0%nat
              _ _ _ H eq_refl) as (m & Hm & Hd & _ & _ & _ & _ & H52).
  exists m. split; [exact Hm |]. split; [exact Hd |].
  exact (H52 eq_refl).
Defined.

(** C4, as stated, fails: for the uptime text [5.2d] the uptime gauge
    is not the float64 5.2. *)
Lemma uptime_5_2d_is_not_5_2 :
  let up := Scripted.upstream (Scripted.healthy "5.2d" []) in
  exists m,
    nth_error (@samples up Scripted.globals Scripted.exporter 0%nat) 9 = Some m
    /\ desc m = uptime
    /\ val m <> fst (strconv.ParseFloat "5.2" 64).
Proof.
  intros up. eexists. split; [reflexivity |]. split; [reflexivity |].
  vm_compute. discriminate.
Qed.

(** A run of C10: the uptime text [3h]. *)
Lemma uptime_parse_error_discarded_witness :
  let up := Scripted.upstream (Scripted.healthy "3h" []) in
  (@scrape_succeeds up Scripted.exporter 0%nat
      Scripted.cluster_snapshot (Scripted.info_snapshot "3h") []
   /\ valid_text (hostname Scripted.globals)
   /\ snd (strconv.ParseFloat (strings.TrimSuffix "3h" "d") 32)
      = Some strconv.ErrSyntax)
  /\ snd (@scrape up Scripted.globals Scripted.exporter 0%nat) = Next tt
  /\ @log_lines up Scripted.globals Scripted.exporter 0%nat = []
  /\ nth_error (@samples up Scripted.globals Scripted.exporter 0%nat) 9
     = Some (@host_gauge Scripted.globals uptime (S754_zero false)).
Proof.
  intros up.
  assert (@scrape_succeeds up Scripted.exporter 0%nat
            Scripted.cluster_snapshot (Scripted.info_snapshot "3h") []) as H
    by scripted_succeeds.
  split; [split; [exact H | split; reflexivity] |].
  destruct (@uptime_parse_error_discarded up Scripted.globals Scripted.exporter
              0%nat _ _ _ strconv.ErrSyntax H eq_refl (Forall_nil _) eq_refl)
    as (_ & Hrun & Hlog & v & Hs & Hv & _).
  split; [exact Hrun |]. split; [exact Hlog |].
  rewrite Hs, (Hv eq_refl). reflexivity.
Defined.

(** C10, as stated, fails: the uptime text [1e39d] fails to parse, with
    a range error, and the uptime gauge is then +Inf, not 0. *)
Lemma uptime_out_of_range_is_not_0 :
  let up := Scripted.upstream (Scripted.healthy "1e39d" []) in
  snd (strconv.ParseFloat (strings.TrimSuffix "1e39d" "d") 32)
  = Some strconv.ErrRange
  /\ exists m,
       nth_error (@samples up Scripted.globals Scripted.exporter 0%nat) 9 = Some m
       /\ desc m = uptime
       /\ val m = S754_infinity false
       /\ val m <> S754_zero false /\ val m <> S754_zero true.
Proof.
  intros up. split; [reflexivity |].
  eexists. split; [reflexivity |]. split; [reflexivity |].
  split; [reflexivity |]. split; vm_compute; discriminate.
Qed.



(** ** Further properties of Collect *)

Lemma all_gauges_described {up : Upstream} g e c i q :
  Forall (fun m => In (desc m) (Describe e)
                   /\ valType m = GaugeValue
                   /\ List.length (labelPairs m)
                      = List.length (variableLabels (desc m)))
         (all_gauges g c i q).
Proof.
  unfold all_gauges. apply Forall_app. split; [| apply Forall_app; split].
  - unfold cluster_gauges, Describe.
    repeat (constructor; [split; [cbn; auto 20 | split; reflexivity] |]).
    constructor.
  - constructor; [| constructor].
    split; [unfold Describe; cbn; auto 20 | split; reflexivity].
  - apply Forall_forall. intros m Hin.
    apply in_map_iff in Hin. destruct Hin as (v & <- & _).
    split; [unfold Describe; cbn; auto 20 | split; reflexivity].
Qed.

(** X1: whatever the upstream answers, every sample that [Collect]
    sends has one of the descriptors that [Describe] sends, is a gauge,
    and has as many label pairs as its descriptor has labels. *)
Theorem samples_described {up : Upstream} g e w :
  Forall (fun m => In (desc m) (Describe e)
                   /\ valType m = GaugeValue
                   /\ List.length (labelPairs m)
                      = List.length (variableLabels (desc m)))
         (samples g e w).
Proof.
  destruct (scrape_fails_or_succeeds e w) as [(n & f & H) | (c & i & q & H)].
  - rewrite (samples_of_failure g e w n f H). constructor.
  - rewrite (samples_of_success g e w c i q H).
    apply Forall_sent_gauges, all_gauges_described.
Qed.

Lemma map_desc_query_gauges {up : Upstream} g q :
  map desc (map (query_gauge g) q) = repeat querys (List.length q).
Proof. induction q as [| v q IH]; cbn; [reflexivity | now rewrite IH]. Qed.

(** X2: a scrape whose three stages succeed and whose label values,
    the host name and the texts of the queries, are valid UTF-8 sends
    its samples in the order of [Describe]: one sample for each of the
    first ten descriptors, then one [querys] sample for each decoded
    query, so 10 plus the number of queries in all; repeated queries are
    not merged. *)
Theorem success_descriptor_sequence {up : Upstream} g e w c i q :
  scrape_succeeds e w c i q ->
  valid_text (hostname g) -> Forall valid_query q ->
  map desc (samples g e w)
  = (firstn 10 (Describe e) ++ repeat querys (List.length q))%list
  /\ List.length (samples g e w) = (10 + List.length q)%nat.
Proof.
  intros H Hh Hq. rewrite (samples_of_valid g e w c i q H Hh Hq).
  unfold all_gauges. split.
  - rewrite !map_app, map_desc_query_gauges. reflexivity.
  - rewrite !length_app, length_map. reflexivity.
Qed.

(** X3: a scrape ends in one of three ways.  The three stages succeed
    and every sample is accepted: [Collect] runs to its end, nothing is
    logged and the full set, of at least ten samples, is sent.  Or a
    stage fails: [Collect] returns early, exactly one line is logged, at
    error level, and no sample is sent.  Or the three stages succeed and
    a label value is not valid UTF-8: [Collect] panics with the error
    for that value after its three requests, nothing is logged, and the
    samples before the one refused have been sent, none when the value
    is the host name, ten or more otherwise. *)
Theorem scrape_outcomes {up : Upstream} g e w :
  (snd (scrape g e w) = Next tt
   /\ log_lines g e w = []
   /\ (10 <= List.length (samples g e w))%nat
   /\ exists c i q,
        scrape_succeeds e w c i q /\ samples g e w = all_gauges g c i q)
  \/ (snd (scrape g e w) = Returned
      /\ samples g e w = []
      /\ (exists line, log_lines g e w = [(ErrorLevel, line)])
      /\ exists n f, scrape_fails e w n f)
  \/ (exists val,
        snd (scrape g e w) = Panicked (errInvalidLabelValue val)
        /\ utf8.ValidString val = false
        /\ log_lines g e w = []
        /\ requested g e w = urls e
        /\ (exists c i q, scrape_succeeds e w c i q)
        /\ (valid_text (hostname g) -> (10 <= List.length (samples g e w))%nat)
        /\ (~ valid_text (hostname g) ->
            val = hostname g /\ samples g e w = [])).
Proof.
  unfold samples, log_lines, requested.
  destruct (scrape_fails_or_succeeds e w) as [(n & f & H) | (c & i & q & H)].
  - right. left. destruct (scrape_fails_run g e w n f H) as [w' ->].
    cbn [fst snd logged sent]. eauto 10.
  - rewrite (scrape_succeeds_run g e w c i q H).
    cbn [fst snd logged sent requests].
    destruct (emit_end_cases g q) as [Hend | (val & Hend & Hval)].
    + left. rewrite Hend, (sent_gauges_Next g c i q Hend).
      unfold all_gauges. rewrite !length_app. cbn [List.length cluster_gauges].
      split; [reflexivity |]. split; [reflexivity |]. split; [lia | eauto].
    + right. right. exists val. rewrite Hend.
      split; [reflexivity |]. split; [exact Hval |].
      split; [reflexivity |]. split; [reflexivity |]. split; [eauto |].
      split.
      * intros Hh. rewrite (sent_gauges_host g c i q Hh).
        rewrite !length_app. cbn [List.length cluster_gauges]. lia.
      * intros Hh. unfold emit_end, sent_gauges, valid_text in *.
        destruct (utf8.ValidString (hostname g)); [now contradiction Hh |].
        split; [| reflexivity]. now injection Hend.
Qed.

Lemma cluster_verdict_exclusive {up : Upstream} e w f c :
  cluster_fails e w f -> cluster_yields e w c -> False.
Proof. apply stage_fails_not_yields. Qed.

Lemma info_verdict_exclusive {up : Upstream} e w f i :
  info_fails e w f -> info_yields e w i -> False.
Proof. apply stage_fails_not_yields. Qed.

(** X4: the requests of a scrape are a beginning of the list cluster,
    info, query, never empty.  The info endpoint is requested exactly
    when the cluster stage has succeeded, and the query endpoint exactly
    when the cluster and the info stage have succeeded. *)
Theorem requests_prefix {up : Upstream} g e w :
  exists n,
    (1 <= n <= 3)%nat
    /\ requested g e w = firstn n (urls e)
    /\ ((2 <= n)%nat <-> exists c, cluster_yields e w c)
    /\ (n = 3%nat <-> exists c i, cluster_yields e w c /\ info_yields e w i).
Proof.
  unfold requested.
  destruct (scrape_fails_or_succeeds e w) as [(n & f & H) | (c & i & q & H)].
  - destruct (scrape_fails_run g e w n f H) as [w' ->]. exists n.
    cbn [fst requests].
    destruct H as [f H | c f Hc H | c i f Hc Hi H].
    + split; [lia |]. split; [reflexivity |]. split; split.
      * lia.
      * intros [c Hc]. exfalso. eapply cluster_verdict_exclusive; eauto.
      * discriminate.
      * intros (c & i & Hc & _). exfalso.
        eapply cluster_verdict_exclusive; eauto.
    + split; [lia |]. split; [reflexivity |]. split; split.
      * eauto.
      * lia.
      * discriminate.
      * intros (c' & i & _ & Hi). exfalso.
        eapply info_verdict_exclusive; eauto.
    + split; [lia |]. split; [reflexivity |]. split; split; eauto; lia.
  - rewrite (scrape_succeeds_run g e w c i q H). exists 3%nat.
    destruct H as (Hc & Hi & _).
    split; [lia |]. split; [reflexivity |]. split; split; eauto; lia.
Qed.

(** X6: the samples of a successful scrape depend on what the three
    bodies decode to and on nothing else of the upstream, and on the
    info snapshot through its uptime alone: two upstreams, of any kind,
    whose scrapes decode the same cluster snapshot, the same queries
    and info snapshots with the same uptime get the same samples. *)
Theorem snapshots_determine_samples (up1 up2 : Upstream) g e
    (w1 : @World up1) (w2 : @World up2) c i1 i2 q :
  @scrape_succeeds up1 e w1 c i1 q ->
  @scrape_succeeds up2 e w2 c i2 q ->
  Uptime i1 = Uptime i2 ->
  @samples up1 g e w1 = @samples up2 g e w2.
Proof.
  intros H1 H2 E.
  rewrite (@samples_of_success up1 g e w1 c i1 q H1).
  rewrite (@samples_of_success up2 g e w2 c i2 q H2).
  unfold sent_gauges, uptime_gauge. now rewrite E.
Qed.

Lemma without_hostname_all_gauges g g' c i q :
  map without_hostname (all_gauges g c i q)
  = map without_hostname (all_gauges g' c i q).
Proof.
  unfold all_gauges. rewrite !map_app. f_equal. f_equal.
  rewrite !map_map. apply map_ext. reflexivity.
Qed.

(** Between two valid host names the label values of a query are
    refused or accepted alike, and with the same error. *)
Lemma validate_query_labels_hostname g g' v :
  valid_text (hostname g) -> valid_text (hostname g') ->
  validateLabelValues (query_labels g v) (List.length (variableLabels querys))
  = validateLabelValues (query_labels g' v)
      (List.length (variableLabels querys)).
Proof.
  unfold valid_text. intros Hh Hh'.
  unfold validateLabelValues, query_labels. cbn [find].
  now rewrite Hh, Hh'.
Qed.

Lemma queries_hostname g g' q :
  valid_text (hostname g) -> valid_text (hostname g') ->
  queries_error g q = queries_error g' q
  /\ queries_sent g q = queries_sent g' q.
Proof.
  intros Hh Hh'. induction q as [| v q [IHe IHs]]; [now split |].
  cbn [queries_error queries_sent].
  rewrite (validate_query_labels_hostname g g' v Hh Hh').
  destruct (validateLabelValues (query_labels g' v)
              (List.length (variableLabels querys))); [now split |].
  split; [exact IHe | now rewrite IHs].
Qed.

(** X7: among host names that are valid UTF-8, the host name has no
    part in a scrape other than being the value of the label
    [hostname]: with another such host name the requests, the log lines
    and the way [Collect] ends are the same, and so are the samples once
    their [hostname] label is taken away. *)
Theorem hostname_only_in_label {up : Upstream} g g' e w :
  valid_text (hostname g) -> valid_text (hostname g') ->
  requested g e w = requested g' e w
  /\ log_lines g e w = log_lines g' e w
  /\ snd (scrape g e w) = snd (scrape g' e w)
  /\ map without_hostname (samples g e w)
     = map without_hostname (samples g' e w).
Proof.
  intros Hh Hh'. unfold requested, log_lines, samples.
  destruct (scrape_fails_or_succeeds e w) as [(n & f & H) | (c & i & q & H)].
  - destruct (scrape_fails_run g e w n f H) as [w1 ->].
    destruct (scrape_fails_run g' e w n f H) as [w2 ->].
    repeat split.
  - rewrite (scrape_succeeds_run g e w c i q H).
    rewrite (scrape_succeeds_run g' e w c i q H).
    cbn [fst snd requests logged sent].
    destruct (queries_hostname g g' q Hh Hh') as [He Hs].
    split; [reflexivity |]. split; [reflexivity |]. split.
    + unfold emit_end. unfold valid_text in Hh, Hh'.
      now rewrite Hh, Hh', He.
    + rewrite (sent_gauges_host g c i q Hh), (sent_gauges_host g' c i q Hh').
      rewrite Hs. apply (without_hostname_all_gauges g g' c i (queries_sent g' q)).
Qed.

Lemma series_query_gauge_id g v :
  lookup "queryId" (snd (series (query_gauge g v))) = Some (QueryId v).
Proof. reflexivity. Qed.

Lemma series_query_gauges_NoDup g q :
  NoDup (map QueryId q) -> NoDup (map series (map (query_gauge g) q)).
Proof.
  intros H.
  apply (NoDup_map_inv (fun x => lookup "queryId" (snd x))).
  rewrite !map_map.
  assert (map (fun v => lookup "queryId" (snd (series (query_gauge g v)))) q
          = map (fun v => Some (QueryId v)) q) as ->
    by (apply map_ext; intros; apply series_query_gauge_id).
  rewrite <- (map_map QueryId Some).
  apply Finite.Injective_map_NoDup; [| assumption].
  intros x y E. now injection E.
Qed.

(** X8: when the decoded queries have pairwise different query ids, no
    two samples of the scrape are the same series, that is, have the
    same metric name and the same label pairs. *)
Theorem distinct_query_ids_distinct_series {up : Upstream} g e w c i q :
  scrape_succeeds e w c i q ->
  NoDup (map QueryId q) ->
  NoDup (map series (samples g e w)).
Proof.
  intros H Hq. rewrite (samples_of_success g e w c i q H).
  destruct (sent_gauges_prefix g c i q) as [rest Hrest].
  apply (NoDup_app_remove_r _ (map series rest)).
  rewrite <- map_app, <- Hrest.
  unfold all_gauges. rewrite app_assoc, map_app.
  apply NoDup_app.
  - apply (NoDup_map_inv fst). cbn.
    repeat (constructor; [cbn; intuition discriminate |]). constructor.
  - now apply series_query_gauges_NoDup.
  - intros x Hx Hin.
    apply in_map_iff in Hin. destruct Hin as (m & <- & Hm).
    apply in_map_iff in Hm. destruct Hm as (v & <- & _).
    cbn in Hx. intuition discriminate.
Qed.

(** ** Label pairs *)

Lemma insert_pair_perm p l : Permutation (insert_pair p l) (p :: l).
Proof.
  induction l as [| q l IH]; cbn; [reflexivity |].
  destruct (String.ltb (fst q) (fst p) || String.eqb (fst q) (fst p));
    [| reflexivity].
  rewrite IH. apply perm_swap.
Qed.

Lemma sort_pairs_perm l : Permutation (sort_pairs l) l.
Proof.
  induction l as [| p l IH]; cbn; [reflexivity |].
  rewrite insert_pair_perm. now constructor.
Qed.

Lemma name_le_total p q :
  String.ltb (fst q) (fst p) || String.eqb (fst q) (fst p) = false ->
  name_le p q.
Proof.
  unfold name_le, String.ltb. intros H.
  apply orb_false_elim in H. destruct H as [Hlt Heq].
  rewrite String.compare_antisym.
  destruct (String.compare (fst q) (fst p)) eqn:E; cbn; try reflexivity.
  - apply String.compare_eq_iff in E. rewrite E, String.eqb_refl in Heq.
    discriminate.
  - discriminate.
Qed.

Lemma insert_pair_sorted p l :
  Sorted name_le l -> Sorted name_le (insert_pair p l).
Proof.
  induction l as [| q l IH]; intros Hs; cbn.
  - repeat constructor.
  - destruct (String.ltb (fst q) (fst p) || String.eqb (fst q) (fst p)) eqn:E.
    + apply Sorted_inv in Hs. destruct Hs as [Hs Hhd].
      constructor; [now apply IH |].
      destruct l as [| r l]; cbn.
      * constructor. exact E.
      * destruct (String.ltb (fst r) (fst p) || String.eqb (fst r) (fst p));
          constructor; [now inversion Hhd | exact E].
    + constructor; [assumption |]. constructor. now apply name_le_total.
Qed.

Lemma sort_pairs_sorted l : Sorted name_le (sort_pairs l).
Proof.
  induction l as [| p l IH]; cbn; [constructor | now apply insert_pair_sorted].
Qed.

Lemma lookup_In k v l :
  NoDup (map fst l) -> In (k, v) l -> lookup k l = Some v.
Proof.
  induction l as [| [k' v'] l IH]; cbn; intros Hnd Hin; [contradiction |].
  apply NoDup_cons_iff in Hnd. destruct Hnd as [Hnotin Hnd].
  destruct Hin as [E | Hin].
  - injection E as -> ->. now rewrite String.eqb_refl.
  - destruct (String.eqb_spec k' k) as [-> | _]; [| now apply IH].
    exfalso. apply Hnotin. apply in_map_iff. now exists (k, v).
Qed.

Lemma map_fst_combine {A B} (l : list A) (l' : list B) :
  List.length l = List.length l' -> map fst (combine l l') = l.
Proof.
  revert l'. induction l as [| a l IH]; intros [| b l'] H; cbn in *;
    try discriminate; [reflexivity |].
  f_equal. apply IH. now injection H.
Qed.

Lemma nth_error_combine {A B} (l : list A) (l' : list B) k a b :
  nth_error l k = Some a -> nth_error l' k = Some b ->
  In (a, b) (combine l l').
Proof.
  revert l l'. induction k as [| k IH]; intros [| x l] [| y l'] Ha Hb;
    cbn in *; try discriminate.
  - injection Ha as ->. injection Hb as ->. now left.
  - right. now apply IH.
Qed.

(** X9: [NewConstMetric] refuses label values that are not as many as
    the labels of the descriptor, with [errInconsistentCardinality],
    and, when they are as many, label values one of which is not valid
    UTF-8, with the error for the first such value.  Otherwise the
    sample has the descriptor, type and value given, and its label pairs
    are the label names, each with the value at the same position, put
    in the order of the names.  When the names are all different,
    looking a name up gives the value that was passed at its
    position. *)
Theorem NewConstMetric_labels d0 valueType value labelValues :
  (List.length labelValues <> List.length (variableLabels d0) ->
   NewConstMetric d0 valueType value labelValues
   = inr errInconsistentCardinality)
  /\ (List.length labelValues = List.length (variableLabels d0) ->
      ~ Forall valid_text labelValues ->
      exists before val after,
        labelValues = (before ++ val :: after)%list
        /\ Forall valid_text before
        /\ utf8.ValidString val = false
        /\ NewConstMetric d0 valueType value labelValues
           = inr (errInvalidLabelValue val))
  /\ (List.length labelValues = List.length (variableLabels d0) ->
      Forall valid_text labelValues ->
      exists m,
        NewConstMetric d0 valueType value labelValues = inl m
        /\ desc m = d0 /\ valType m = valueType /\ val m = value
        /\ Permutation (labelPairs m) (combine (variableLabels d0) labelValues)
        /\ Sorted name_le (labelPairs m)
        /\ (NoDup (variableLabels d0) ->
            forall k name v,
              nth_error (variableLabels d0) k = Some name ->
              nth_error labelValues k = Some v ->
              label m name = Some v)).
Proof.
  unfold NewConstMetric. split; [| split]; intros H.
  - unfold validateLabelValues. apply Nat.eqb_neq in H. now rewrite H.
  - intros Hbad. unfold validateLabelValues.
    apply Nat.eqb_eq in H. rewrite H. cbn [negb].
    destruct (find_invalid_first labelValues Hbad)
      as (before & val & after & Hl & Hb & Hval & Hfind).
    exists before, val, after. now rewrite Hfind.
  - intros Hok.
    rewrite (validateLabelValues_valid labelValues _ H Hok).
    eexists. split; [reflexivity |].
    cbn [desc valType val labelPairs]. unfold makeLabelPairs.
    repeat (split; [reflexivity |]).
    split; [apply sort_pairs_perm |]. split; [apply sort_pairs_sorted |].
    intros Hnd k name v Hn Hv. unfold label. cbn [labelPairs].
    apply lookup_In.
    + eapply Permutation_NoDup.
      * apply Permutation_map. symmetry. apply sort_pairs_perm.
      * now rewrite map_fst_combine.
    + eapply Permutation_in; [symmetry; apply sort_pairs_perm |].
      eapply nth_error_combine; eauto.
Qed.

(** ** Suffixes *)

Lemma substring_all s : substring 0 (String.length s) s = s.
Proof. induction s as [| c s IH]; cbn; [reflexivity | now rewrite IH]. Qed.

Lemma substring_split s : forall a,
  (a <= String.length s)%nat ->
  substring 0 a s ++ substring a (String.length s - a) s = s.
Proof.
  induction s as [| c s IH]; intros [| a] Ha; cbn in *; try lia.
  - reflexivity.
  - now rewrite substring_all.
  - rewrite IH by lia. reflexivity.
Qed.

Lemma HasSuffix_append t suffix : strings.HasSuffix (t ++ suffix) suffix = true.
Proof.
  unfold strings.HasSuffix. rewrite length_append.
  replace (String.length t + String.length suffix - String.length suffix)%nat
    with (String.length t) by lia.
  rewrite substring_suffix, String.eqb_refl.
  destruct (Nat.leb_spec (String.length suffix)
              (String.length t + String.length suffix)); [reflexivity | lia].
Qed.

(** X10: [TrimSuffix] takes the suffix away once when the text ends
    with it, so that what is left followed by the suffix is the text
    again, and gives the text back unchanged when it does not end with
    the suffix. *)
Theorem TrimSuffix_cases s suffix :
  (strings.HasSuffix s suffix = true
   /\ s = strings.TrimSuffix s suffix ++ suffix
   /\ String.length (strings.TrimSuffix s suffix)
      = (String.length s - String.length suffix)%nat)
  \/ (strings.HasSuffix s suffix = false
      /\ strings.TrimSuffix s suffix = s
      /\ forall t, s <> t ++ suffix).
Proof.
  unfold strings.TrimSuffix.
  destruct (strings.HasSuffix s suffix) eqn:E; [left | right].
  - split; [reflexivity |].
    unfold strings.HasSuffix in E. apply andb_prop in E.
    destruct E as [Hle Heq]. apply Nat.leb_le in Hle.
    apply String.eqb_eq in Heq.
    pose proof (substring_split s (String.length s - String.length suffix)
                  ltac:(lia)) as Hs.
    replace (String.length s - (String.length s - String.length suffix))%nat
      with (String.length suffix) in Hs by lia.
    rewrite Heq in Hs. split; [now symmetry |].
    apply (f_equal String.length) in Hs. rewrite length_append in Hs. lia.
  - split; [reflexivity |]. split; [reflexivity |].
    intros t ->. now rewrite HasSuffix_append in E.
Qed.

(** ** What ParseFloat accepts *)

Lemma equalIgnoreCase_bytes s : forall lit c,
  strconv.equalIgnoreCase s lit = true ->
  In c (list_ascii_of_string s) ->
  exists c', In c' (list_ascii_of_string lit)
             /\ strconv.to_lower c = strconv.to_lower c'.
Proof.
  induction s as [| a s IH]; intros [| b lit] c H Hin; cbn in *;
    try discriminate; [contradiction |].
  apply andb_prop in H. destruct H as [Hab Hrest].
  apply Ascii.eqb_eq in Hab.
  destruct Hin as [<- | Hin].
  - exists b. auto.
  - destruct (IH lit c Hrest Hin) as (c' & Hc' & E). exists c'. auto.
Qed.

Lemma accepted_by_lower c c' :
  strconv.to_lower c = strconv.to_lower c' ->
  existsb (Ascii.eqb (strconv.to_lower c'))
    ["."; "+"; "-"; "e"; "i"; "n"; "f"; "t"; "y"; "a"]%char = true ->
  accepted_byte c = true.
Proof.
  intros E H. unfold accepted_byte. rewrite E, H. apply orb_true_r.
Qed.

Ltac literal_byte :=
  match goal with
  | H : In _ (list_ascii_of_string _) |- _ =>
      cbn in H;
      repeat (destruct H as [<- | H]; [reflexivity |]); contradiction
  end.

Lemma special_bytes s v c :
  strconv.special s = Some v ->
  In c (list_ascii_of_string s) -> accepted_byte c = true.
Proof.
  unfold strconv.special. destruct s as [| a s]; [discriminate |].
  intros H Hin.
  assert (forall lit,
            strconv.equalIgnoreCase (String a s) lit = true ->
            (forall c', In c' (list_ascii_of_string lit) ->
               existsb (Ascii.eqb (strconv.to_lower c'))
                 ["."; "+"; "-"; "e"; "i"; "n"; "f"; "t"; "y"; "a"]%char
               = true) ->
            accepted_byte c = true) as Hlit.
  { intros lit Heq Hall.
    destruct (equalIgnoreCase_bytes _ _ _ Heq Hin) as (c' & Hc' & E).
    eapply accepted_by_lower; eauto. }
  repeat match type of H with
         | (if ?b then _ else _) = Some _ => destruct b eqn:?
         end; try discriminate;
  repeat match goal with
         | E : (_ || _)%bool = true |- _ =>
             apply orb_prop in E; destruct E as [E | E]
         end;
  match goal with
  | E : strconv.equalIgnoreCase _ ?lit = true |- _ =>
      apply (Hlit lit E); intros; literal_byte
  end.
Qed.

Lemma is_digit_accepted c : is_digit c = true -> accepted_byte c = true.
Proof. intros H. unfold accepted_byte. now rewrite H. Qed.

Lemma set_digits_bytes s : forall sawdot sawdigits m n p tl sd sg m' n' p' c,
  strconv.set_digits s sawdot sawdigits m n p = Some (tl, sd, sg, m', n', p') ->
  In c (list_ascii_of_string s) ->
  accepted_byte c = true \/ In c (list_ascii_of_string tl).
Proof.
  induction s as [| a s IH]; intros sawdot sawdigits m n p tl sd sg m' n' p' c;
    cbn [strconv.set_digits list_ascii_of_string In]; [contradiction |].
  destruct (Ascii.eqb_spec a ".") as [-> | Hdot].
  - destruct sawdot; [discriminate |].
    intros H [<- | Hin]; [now left | eauto].
  - destruct (is_digit a) eqn:Hd.
    + destruct (Ascii.eqb a "0" && (n =? 0));
        intros H [<- | Hin]; eauto using is_digit_accepted.
    + intros H Hin. injection H as <- _ _ _ _ _. right. exact Hin.
Qed.

Lemma set_exp_digits_bytes s : forall e tl e' c,
  strconv.set_exp_digits s e = (tl, e') ->
  In c (list_ascii_of_string s) ->
  accepted_byte c = true \/ In c (list_ascii_of_string tl).
Proof.
  induction s as [| a s IH]; intros e tl e' c;
    cbn [strconv.set_exp_digits list_ascii_of_string In]; [contradiction |].
  destruct (is_digit a) eqn:Hd.
  - intros H [<- | Hin]; eauto using is_digit_accepted.
  - intros H Hin. injection H as <- _. right. exact Hin.
Qed.

Lemma exp_part_bytes digs esign e c :
  match digs with
  | EmptyString => None
  | String c2 _ =>
      if is_digit c2
      then let '(tl, e0) := strconv.set_exp_digits digs 0 in
           Some (tl, e0 * esign)
      else None
  end = Some (EmptyString, e) ->
  In c (list_ascii_of_string digs) -> accepted_byte c = true.
Proof.
  destruct digs as [| c2 digs']; [discriminate |].
  destruct (is_digit c2); [| discriminate].
  destruct (strconv.set_exp_digits (String c2 digs') 0) as [tl e0] eqn:Eexp.
  intros H Hin. injection H as -> _.
  destruct (set_exp_digits_bytes _ _ _ _ c Eexp Hin) as [? | []].
  assumption.
Qed.

Lemma set_exponent_bytes s e c :
  strconv.set_exponent s = Some (EmptyString, e) ->
  In c (list_ascii_of_string s) -> accepted_byte c = true.
Proof.
  unfold strconv.set_exponent. destruct s as [| a rest]; [contradiction |].
  destruct (Ascii.eqb a "e" || Ascii.eqb a "E") eqn:Ee; [| discriminate].
  assert (accepted_byte a = true) as Ha.
  { apply orb_prop in Ee.
    destruct Ee as [E | E]; apply Ascii.eqb_eq in E; now subst. }
  destruct rest as [| c1 rest1]; [discriminate |].
  intros H [<- | Hin]; [exact Ha |].
  destruct (Ascii.eqb_spec c1 "+") as [-> | Hplus].
  - destruct Hin as [<- | Hin]; [reflexivity |].
    exact (exp_part_bytes _ _ _ _ H Hin).
  - destruct (Ascii.eqb_spec c1 "-") as [-> | Hminus].
    + destruct Hin as [<- | Hin]; [reflexivity |].
      exact (exp_part_bytes _ _ _ _ H Hin).
    + exact (exp_part_bytes (String c1 rest1) 1 _ _ H Hin).
Qed.

Lemma decimal_set_bytes s dec c :
  strconv.decimal_set s = Some dec ->
  In c (list_ascii_of_string s) -> accepted_byte c = true.
Proof.
  unfold strconv.decimal_set. destruct s as [| a rest]; [discriminate |].
  assert (forall (sign : bool) body,
            match strconv.set_digits body false false 0 0 0 with
            | None => None
            | Some (tl, sawdot, sawdigits, m, n, p) =>
                if negb sawdigits then None
                else
                  let p0 := if sawdot then p else n in
                  match strconv.set_exponent tl with
                  | None => None
                  | Some (EmptyString, e) =>
                      Some {| strconv.neg := sign; strconv.mant := m;
                              strconv.nd := n; strconv.dp := p0 + e |}
                  | Some (String _ _, _) => None
                  end
            end = Some dec ->
            In c (list_ascii_of_string body) -> accepted_byte c = true)
    as Hsign.
  { intros sign body H Hin.
    destruct (strconv.set_digits body false false 0 0 0)
      as [[[[[[tl sd] sg] m] n] p] |] eqn:Eset; [| discriminate].
    destruct (negb sg); [discriminate |].
    destruct (strconv.set_exponent tl) as [[[| x tl'] e] |] eqn:Eexp;
      try discriminate.
    destruct (set_digits_bytes _ _ _ _ _ _ _ _ _ _ _ _ c Eset Hin)
      as [? | Hin']; [assumption |].
    exact (set_exponent_bytes _ _ _ Eexp Hin'). }
  intros H Hin.
  destruct (Ascii.eqb_spec a "+") as [-> | Hplus].
  - destruct Hin as [<- | Hin]; [reflexivity |]. exact (Hsign _ _ H Hin).
  - destruct (Ascii.eqb_spec a "-") as [-> | Hminus].
    + destruct Hin as [<- | Hin]; [reflexivity |]. exact (Hsign _ _ H Hin).
    + exact (Hsign _ _ H Hin).
Qed.

(** A text with a byte that no accepted text holds is a syntax error
    and gives 0. *)
Lemma ParseFloat_foreign_byte s bitSize c :
  In c (list_ascii_of_string s) -> accepted_byte c = false ->
  strconv.ParseFloat s bitSize = (S754_zero false, Some strconv.ErrSyntax).
Proof.
  intros Hin Hc.
  assert (forall prec emax,
            strconv.atof prec emax s = (S754_zero false, Some strconv.ErrSyntax))
    as Hatof.
  { intros prec emax. unfold strconv.atof.
    destruct (strconv.special s) as [v |] eqn:Es.
    - rewrite (special_bytes _ _ _ Es Hin) in Hc. discriminate.
    - destruct (strconv.decimal_set s) as [dec |] eqn:Ed; [| reflexivity].
      rewrite (decimal_set_bytes _ _ _ Ed Hin) in Hc. discriminate. }
  unfold strconv.ParseFloat, strconv.atof32, strconv.atof64.
  destruct (bitSize =? 32); now rewrite Hatof.
Qed.

(** X11: [ParseFloat] takes a text with any byte other than a digit, a
    point, a sign, [e] or [E], or a letter of [inf], [infinity] or
    [nan], as a syntax error with the value 0; so does it the empty
    text.  A text read without a syntax error holds accepted bytes
    only. *)
Theorem ParseFloat_accepted_bytes s bitSize :
  (forall c, In c (list_ascii_of_string s) -> accepted_byte c = false ->
     strconv.ParseFloat s bitSize = (S754_zero false, Some strconv.ErrSyntax))
  /\ (snd (strconv.ParseFloat s bitSize) <> Some strconv.ErrSyntax ->
      Forall (fun c => accepted_byte c = true) (list_ascii_of_string s))
  /\ strconv.ParseFloat EmptyString bitSize
     = (S754_zero false, Some strconv.ErrSyntax).
Proof.
  split; [| split].
  - intros c. apply ParseFloat_foreign_byte.
  - intros H. apply Forall_forall. intros c Hin.
    destruct (accepted_byte c) eqn:Hc; [reflexivity |].
    rewrite (ParseFloat_foreign_byte s bitSize c Hin Hc) in H.
    now contradiction H.
  - unfold strconv.ParseFloat. now destruct (bitSize =? 32).
Qed.

Lemma append_assoc s t u : (s ++ t) ++ u = s ++ (t ++ u).
Proof. induction s as [| c s IH]; cbn; [reflexivity | now rewrite IH]. Qed.

Lemma TrimSuffix_other_end t b :
  b <> "d"%char ->
  strings.TrimSuffix (t ++ String b EmptyString) "d" = t ++ String b EmptyString.
Proof.
  intros Hb. unfold strings.TrimSuffix, strings.HasSuffix.
  rewrite length_append. cbn [String.length].
  replace (String.length t + 1 - 1)%nat with (String.length t) by lia.
  pose proof (substring_suffix t (String b EmptyString)) as Hs.
  cbn [String.length] in Hs. rewrite Hs.
  destruct (String.eqb_spec (String b EmptyString) "d") as [E | _].
  - now injection E.
  - now rewrite andb_false_r.
Qed.

(** The uptime gauge of an uptime text in hours, minutes or seconds, or
    with two trailing [d], is 0. *)
Lemma uptime_value_other_units s :
  (exists t b, s = t ++ String b EmptyString /\ In b ["h"; "m"; "s"]%char)
  \/ (exists t, s = t ++ "dd") ->
  uptime_value s = S754_zero false.
Proof.
  unfold uptime_value.
  intros [(t & b & -> & Hb) | (t & ->)].
  - rewrite TrimSuffix_other_end
      by (cbn in Hb; intuition (subst; discriminate)).
    rewrite (ParseFloat_foreign_byte _ 32 b); [reflexivity | |].
    + rewrite list_ascii_of_append. apply in_or_app. right. now left.
    + cbn in Hb. intuition (subst; reflexivity).
  - replace (t ++ "dd") with ((t ++ "d") ++ "d") by apply append_assoc.
    rewrite TrimSuffix_append.
    rewrite (ParseFloat_foreign_byte _ 32 "d"%char); [reflexivity | |].
    + rewrite list_ascii_of_append. apply in_or_app. right. now left.
    + reflexivity.
Qed.

(** X12: when the three stages succeed, the host name is valid UTF-8
    and the uptime of the info snapshot is given in hours, minutes or
    any kind of seconds (the text ends in [h], [m] or [s]), or ends in
    two [d], the uptime gauge is sent all the same, with the value 0;
    and when the texts of the queries are valid UTF-8 as well, the
    scrape runs to its end. *)
Theorem uptime_other_units {up : Upstream} g e w c i q :
  scrape_succeeds e w c i q ->
  valid_text (hostname g) ->
  (exists t b, Uptime i = t ++ String b EmptyString
               /\ In b ["h"; "m"; "s"]%char)
  \/ (exists t, Uptime i = t ++ "dd") ->
  nth_error (samples g e w) 9
  = Some {| desc := uptime; valType := GaugeValue;
            val := S754_zero false;
            labelPairs := [("hostname", hostname g)] |}
  /\ (Forall valid_query q -> snd (scrape g e w) = Next tt).
Proof.
  intros H Hh Hu. split.
  - rewrite (nth_error_samples_uptime g e w c i q H Hh).
    unfold uptime_gauge, host_gauge.
    now rewrite (uptime_value_other_units _ Hu).
  - intros Hq. now rewrite (scrape_valid_run g e w c i q H Hh Hq).
Qed.

(** ** Itoa read back *)

Lemma digit_val_digit_byte d : in_0_9 d -> digit_val (digit_byte d) = d.
Proof.
  unfold in_0_9. intros H.
  assert (d = 0 \/ d = 1 \/ d = 2 \/ d = 3 \/ d = 4 \/ d = 5 \/ d = 6
          \/ d = 7 \/ d = 8 \/ d = 9) as Hd by lia.
  repeat (destruct Hd as [-> | Hd]; [reflexivity |]). now subst.
Qed.

Lemma digit_byte_neq_minus d : in_0_9 d -> Ascii.eqb (digit_byte d) "-" = false.
Proof.
  unfold in_0_9. intros H.
  assert (d = 0 \/ d = 1 \/ d = 2 \/ d = 3 \/ d = 4 \/ d = 5 \/ d = 6
          \/ d = 7 \/ d = 8 \/ d = 9) as Hd by lia.
  repeat (destruct Hd as [-> | Hd]; [reflexivity |]). now subst.
Qed.

Lemma digit_vals_of_bytes l :
  Forall in_0_9 l -> map digit_val (map digit_byte l) = l.
Proof.
  induction 1 as [| d l Hd _ IH]; cbn [map]; [reflexivity |].
  now rewrite digit_val_digit_byte, IH.
Qed.

Lemma read_digits l :
  Forall in_0_9 l ->
  digits_value
    (map digit_val (list_ascii_of_string (string_of_bytes (map digit_byte l))))
  = digits_value l.
Proof. intros H. now rewrite list_ascii_of_bytes, digit_vals_of_bytes. Qed.

Lemma read_decimal_Itoa n : read_decimal (strconv.Itoa n) = n.
Proof.
  destruct n as [| p | p]; [reflexivity | |].
  - unfold strconv.Itoa, read_decimal.
    pose proof (digits_of_range (Z.pos p)) as Hr.
    pose proof (digits_of_value (Z.pos p) ltac:(lia)) as Hv.
    destruct (digits_of (Z.pos p)) as [| d l] eqn:E; [discriminate Hv |].
    cbn [map string_of_bytes].
    rewrite (digit_byte_neq_minus d) by now inversion Hr.
    change (String (digit_byte d) (string_of_bytes (map digit_byte l)))
      with (string_of_bytes (map digit_byte (d :: l))).
    now rewrite read_digits.
  - unfold strconv.Itoa, read_decimal. cbn [Ascii.eqb Bool.eqb].
    rewrite read_digits by apply digits_of_range.
    rewrite digits_of_value; lia.
Qed.

(** X13: the text that [Itoa] writes reads back as the number it was
    given, a negative one with its [-] in front; so two counts of
    drivers have the same [totalDrivers] label only when they are
    equal. *)
Theorem Itoa_read_back n m :
  read_decimal (strconv.Itoa n) = n
  /\ (strconv.Itoa n = strconv.Itoa m <-> n = m)
  /\ (n < 0 <-> exists t, strconv.Itoa n = String "-" t).
Proof.
  split; [apply read_decimal_Itoa |]. split.
  - split; [| now intros ->].
    intros E. rewrite <- (read_decimal_Itoa n), <- (read_decimal_Itoa m).
    now rewrite E.
  - split.
    + destruct n as [| p | p]; try lia. intros _. eexists. reflexivity.
    + intros [t E]. destruct n as [| p | p]; [discriminate | | lia].
      unfold strconv.Itoa in E.
      pose proof (digits_of_range (Z.pos p)) as Hr.
      destruct (digits_of (Z.pos p)) as [| d l]; [discriminate |].
      cbn [map string_of_bytes] in E. injection E as E _.
      pose proof (digit_byte_neq_minus d ltac:(now inversion Hr)) as Hd.
      rewrite E in Hd. discriminate.
Qed.

(** ** Label values that are refused *)





(** X14: when the three stages succeed and the host name is not valid
    UTF-8, [Collect] panics at its first sample with the error for the
    host name: the three requests have been made, nothing is logged and
    no sample is sent, whatever the snapshots hold. *)
Theorem invalid_hostname_panics {up : Upstream} g e w c i q :
  scrape_succeeds e w c i q ->
  ~ valid_text (hostname g) ->
  snd (scrape g e w) = Panicked (errInvalidLabelValue (hostname g))
  /\ samples g e w = []
  /\ log_lines g e w = []
  /\ requested g e w = urls e.
Proof.
  intros H Hh. unfold samples, log_lines, requested.
  rewrite (scrape_succeeds_run g e w c i q H).
  cbn [fst snd sent logged requests].
  unfold emit_end, sent_gauges, valid_text in *.
  destruct (utf8.ValidString (hostname g)); [now contradiction Hh |].
  repeat split.
Qed.


(** ** Runs of the further properties *)

(** A run of X2: a healthy coordinator with the same query listed
    twice; twelve samples, the last two for [querys]. *)
Lemma success_descriptor_sequence_witness :
  let qs := [Scripted.query_record (dyadic 3 20);
             Scripted.query_record (dyadic 3 20)] in
  let up := Scripted.upstream (Scripted.healthy "5d" qs) in
  (@scrape_succeeds up Scripted.exporter 0%nat
      Scripted.cluster_snapshot (Scripted.info_snapshot "5d") qs
   /\ valid_text (hostname Scripted.globals) /\ Forall valid_query qs)
  /\ map desc (@samples up Scripted.globals Scripted.exporter 0%nat)
     = [runningQueries; blockedQueries; queuedQueries; activeWorkers;
        runningDrivers; reservedMemory; totalInputRows; totalInputBytes;
        totalCpuTimeSecs; uptime; querys; querys]
  /\ List.length (@samples up Scripted.globals Scripted.exporter 0%nat)
     = 12%nat.
Proof.
  intros qs up.
  assert (@scrape_succeeds up Scripted.exporter 0%nat
            Scripted.cluster_snapshot (Scripted.info_snapshot "5d") qs) as H
    by scripted_succeeds.
  assert (Forall valid_query qs) as Hvq by scripted_valid.
  split; [split; [exact H | split; [reflexivity | exact Hvq]] |].
  exact (@success_descriptor_sequence up Scripted.globals Scripted.exporter
           0%nat _ _ _ H eq_refl Hvq).
Defined.

(** A run of X7: the same scrape under two host names. *)
Lemma hostname_only_in_label_witness :
  let g' := startup ("presto-coordinator-2", None) in
  let up := Scripted.upstream
              (Scripted.healthy "5d" [Scripted.query_record (dyadic 3 20)]) in
  (valid_text (hostname Scripted.globals) /\ valid_text (hostname g'))
  /\ hostname Scripted.globals <> hostname g'
  /\ snd (@scrape up Scripted.globals Scripted.exporter 0%nat)
     = snd (@scrape up g' Scripted.exporter 0%nat)
  /\ map without_hostname (@samples up Scripted.globals Scripted.exporter 0%nat)
     = map without_hostname (@samples up g' Scripted.exporter 0%nat).
Proof.
  intros g' up. split; [split; reflexivity |]. split; [discriminate |].
  exact (proj2 (proj2 (@hostname_only_in_label up Scripted.globals g'
                         Scripted.exporter 0%nat eq_refl eq_refl))).
Defined.

(** A run of X6: two coordinators that differ in the other fields of
    the info snapshot and in how many requests they have served. *)
Lemma snapshots_determine_samples_witness :
  let qs := [Scripted.query_record (dyadic 3 20)] in
  let i2 := {| NodeVersion_Version := "0.212"; Environment := "production";
               Coordinator := true; Starting := false; Uptime := "5d" |} in
  let up1 := Scripted.upstream (Scripted.healthy "5d" qs) in
  let up2 := Scripted.upstream
               {| Scripted.cluster := Scripted.ok Scripted.cluster_body;
                  Scripted.info := Scripted.ok "{...}";
                  Scripted.query := Scripted.ok "[...]";
                  Scripted.info_decoded := Ok i2;
                  Scripted.query_decoded := Ok qs |} in
  @scrape_succeeds up1 Scripted.exporter 0%nat
     Scripted.cluster_snapshot (Scripted.info_snapshot "5d") qs
  /\ @scrape_succeeds up2 Scripted.exporter 7%nat
       Scripted.cluster_snapshot i2 qs
  /\ Scripted.info_snapshot "5d" <> i2
  /\ @samples up1 Scripted.globals Scripted.exporter 0%nat
     = @samples up2 Scripted.globals Scripted.exporter 7%nat.
Proof.
  intros qs i2 up1 up2.
  assert (@scrape_succeeds up1 Scripted.exporter 0%nat
            Scripted.cluster_snapshot (Scripted.info_snapshot "5d") qs) as H1
    by scripted_succeeds.
  assert (@scrape_succeeds up2 Scripted.exporter 7%nat
            Scripted.cluster_snapshot i2 qs) as H2
    by scripted_succeeds.
  split; [exact H1 |]. split; [exact H2 |]. split; [discriminate |].
  exact (snapshots_determine_samples up1 up2 Scripted.globals
           Scripted.exporter 0%nat 7%nat _ _ _ _ H1 H2 eq_refl).
Defined.

(** A run of X8: two queries with different ids and otherwise the same
    fields. *)
Lemma distinct_query_ids_distinct_series_witness :
  let q1 := Scripted.query_record (dyadic 3 20) in
  let q2 := {| QueryId := "20181101_000002_00002_abcde";
               State := State q1; Scheduled := Scheduled q1;
               Query_Query := Query_Query q1; QueryStats := QueryStats q1 |} in
  let up := Scripted.upstream (Scripted.healthy "5d" [q1; q2]) in
  @scrape_succeeds up Scripted.exporter 0%nat
     Scripted.cluster_snapshot (Scripted.info_snapshot "5d") [q1; q2]
  /\ NoDup (map QueryId [q1; q2])
  /\ NoDup (map series (@samples up Scripted.globals Scripted.exporter 0%nat)).
Proof.
  intros q1 q2 up.
  assert (@scrape_succeeds up Scripted.exporter 0%nat
            Scripted.cluster_snapshot (Scripted.info_snapshot "5d") [q1; q2])
    as H by scripted_succeeds.
  assert (NoDup (map QueryId [q1; q2])) as Hq.
  { constructor; [| constructor; [intros [] | constructor]].
    intros [E | []]. discriminate E. }
  split; [exact H |]. split; [exact Hq |].
  exact (@distinct_query_ids_distinct_series up Scripted.globals
           Scripted.exporter 0%nat _ _ _ H Hq).
Defined.

(** A run of X9: the [uptime] descriptor with no label value, then
    with a value that is not valid UTF-8, and a descriptor whose two
    labels are not in the order of their names. *)
Lemma NewConstMetric_labels_witness :
  let d0 := NewDesc "presto_cluster_example" "An example." ["state"; "queryId"] in
  let h := "bad" ++ String (ascii_of_nat 255) "host" in
  NewConstMetric uptime GaugeValue (dyadic 5 0) []
  = inr errInconsistentCardinality
  /\ NewConstMetric uptime GaugeValue (dyadic 5 0) [h]
     = inr (errInvalidLabelValue h)
  /\ exists m,
       NewConstMetric d0 GaugeValue (dyadic 5 0) ["RUNNING"; "q1"] = inl m
       /\ Sorted name_le (labelPairs m)
       /\ label m "state" = Some "RUNNING"
       /\ label m "queryId" = Some "q1".
Proof.
  intros d0 h. split; [| split].
  - apply (proj1 (NewConstMetric_labels uptime GaugeValue (dyadic 5 0) [])).
    cbn. discriminate.
  - destruct (proj1 (proj2 (NewConstMetric_labels uptime GaugeValue
                              (dyadic 5 0) [h])) eq_refl)
      as (before & val & after & Hl & _ & _ & ->).
    { intros Hall. inversion Hall as [| x l Hx]. discriminate Hx. }
    destruct before as [| b0 before].
    + now injection Hl as ->.
    + injection Hl as _ Hl. now destruct before.
  - destruct (proj2 (proj2 (NewConstMetric_labels d0 GaugeValue (dyadic 5 0)
                              ["RUNNING"; "q1"])) eq_refl)
      as (m & Hm & _ & _ & _ & _ & Hs & Hl).
    { repeat constructor. }
    assert (NoDup (variableLabels d0)) as Hn.
    { constructor; [| constructor; [intros [] | constructor]].
      intros [E | []]. discriminate E. }
    exists m. split; [exact Hm |]. split; [exact Hs |]. split.
    + exact (Hl Hn 0%nat "state" "RUNNING" eq_refl eq_refl).
    + exact (Hl Hn 1%nat "queryId" "q1" eq_refl eq_refl).
Defined.

(** A run of X11: the uptime text [3.48h], and the bytes of [-1.5e+3]. *)
Lemma ParseFloat_accepted_bytes_witness :
  strconv.ParseFloat "3.48h" 32 = (S754_zero false, Some strconv.ErrSyntax)
  /\ Forall (fun c => accepted_byte c = true) (list_ascii_of_string "-1.5e+3").
Proof.
  split.
  - apply (proj1 (ParseFloat_accepted_bytes "3.48h" 32) "h"%char).
    + cbn. tauto.
    + reflexivity.
  - apply (proj1 (proj2 (ParseFloat_accepted_bytes "-1.5e+3" 64))).
    vm_compute. discriminate.
Defined.

(** A run of X12: the uptime text [3.48h]. *)
Lemma uptime_other_units_witness :
  let up := Scripted.upstream (Scripted.healthy "3.48h" []) in
  (@scrape_succeeds up Scripted.exporter 0%nat
      Scripted.cluster_snapshot (Scripted.info_snapshot "3.48h") []
   /\ valid_text (hostname Scripted.globals))
  /\ nth_error (@samples up Scripted.globals Scripted.exporter 0%nat) 9
     = Some {| desc := uptime; valType := GaugeValue;
               val := S754_zero false;
               labelPairs := [("hostname", "presto-coordinator-1")] |}
  /\ snd (@scrape up Scripted.globals Scripted.exporter 0%nat) = Next tt.
Proof.
  intros up.
  assert (@scrape_succeeds up Scripted.exporter 0%nat
            Scripted.cluster_snapshot (Scripted.info_snapshot "3.48h") [])
    as H by scripted_succeeds.
  split; [split; [exact H | reflexivity] |].
  destruct (@uptime_other_units up Scripted.globals Scripted.exporter 0%nat
              _ _ _ H eq_refl) as [Hm Hend].
  { left. exists "3.48", "h"%char. split; [reflexivity |]. cbn. tauto. }
  split; [exact Hm | exact (Hend (Forall_nil _))].
Defined.

(** A run of X14: the host name [bad] + byte 255 + [host], with one
    query. *)
Lemma invalid_hostname_panics_witness :
  let h := "bad" ++ String (ascii_of_nat 255) "host" in
  let qs := [Scripted.query_record (dyadic 3 20)] in
  let up := Scripted.upstream (Scripted.healthy "5d" qs) in
  (@scrape_succeeds up Scripted.exporter 0%nat
      Scripted.cluster_snapshot (Scripted.info_snapshot "5d") qs
   /\ ~ valid_text (hostname (startup (h, None))))
  /\ snd (@scrape up (startup (h, None)) Scripted.exporter 0%nat)
     = Panicked (errInvalidLabelValue h)
  /\ @samples up (startup (h, None)) Scripted.exporter 0%nat = [].
Proof.
  intros h qs up.
  assert (@scrape_succeeds up Scripted.exporter 0%nat
            Scripted.cluster_snapshot (Scripted.info_snapshot "5d") qs) as H
    by scripted_succeeds.
  assert (~ valid_text (hostname (startup (h, None)))) as Hh
    by (intros E; discriminate E).
  split; [split; [exact H | exact Hh] |].
  destruct (@invalid_hostname_panics up (startup (h, None)) Scripted.exporter
              0%nat _ _ _ H Hh) as (Hend & Hs & _).
  split; [exact Hend | exact Hs].
Defined.

